(** * Gallery_photo: the upload pipeline, the gallery store and the search
    filter of [src/App.tsx], embedded in Rocq.

    The component [App] keeps its data in React state cells and in
    [localStorage].  The embedding keeps one record, [World], with a field
    per state cell the pipeline touches, the storage area, the console and
    the history of progress values; every handler of the source is a
    computation in a small state-and-exception monad over [World].

    Conventions.
    - A JavaScript string is the list of its UTF-16 code units.
    - [File.size], [Date.now()] and array lengths are non-negative integers
      ([N] or [nat]).
    - A JavaScript number is the rational it denotes ([Q]); the quotient
      and the product of line 154 are rounded to the nearest binary64
      number, ties to even, as the operators [/] and [*] round them.
    - What the browser decides ([FileReader], the clock, [Math.random], the
      storage quota) is read from an explicit environment. *)

From Stdlib Require Import List String Ascii NArith ZArith QArith Lia Bool.
From Stdlib Require Import Sorted DecimalFacts DecimalPos DecimalN.
From Stdlib Require Import Qround Qpower Lqa SpecFloat.
From stdpp Require Import base gmap.
Import ListNotations.

Open Scope N_scope.

(* ===================================================================== *)
(** ** JavaScript strings *)

Abbreviation code_unit := N (only parsing).
Abbreviation jsstring := (list N) (only parsing).

(** A string literal of the source (they are all ASCII), as code units. *)
Definition js (s : string) : jsstring :=
  List.map N_of_ascii (list_ascii_of_string s).

Fixpoint jsstring_eqb (a b : jsstring) : bool :=
  match a, b with
  | [], [] => true
  | x :: a', y :: b' => (x =? y) && jsstring_eqb a' b'
  | _, _ => false
  end.

(** [Array.prototype.includes] on an array of strings (strict equality). *)
Definition Array_includes (arr : list jsstring) (x : jsstring) : bool :=
  existsb (jsstring_eqb x) arr.

Fixpoint starts_with (needle hay : jsstring) : bool :=
  match needle, hay with
  | [], _ => true
  | _ :: _, [] => false
  | x :: needle', y :: hay' => (x =? y) && starts_with needle' hay'
  end.

(** [String.prototype.includes]: is there a position of [hay] at which
    [needle] occurs? *)
Fixpoint String_includes (hay needle : jsstring) : bool :=
  starts_with needle hay
  || match hay with
     | [] => false
     | _ :: hay' => String_includes hay' needle
     end.

(** [String.prototype.substr(start, length)] for non-negative arguments. *)
Definition String_substr (s : jsstring) (start len : nat) : jsstring :=
  firstn len (skipn start s).

(* ===================================================================== *)
(** ** Numbers printed in decimal *)

Definition digit_unit (d : N) : code_unit := 48 + d.

Fixpoint uint_units (d : Decimal.uint) : jsstring :=
  match d with
  | Decimal.Nil => []
  | Decimal.D0 d' => digit_unit 0 :: uint_units d'
  | Decimal.D1 d' => digit_unit 1 :: uint_units d'
  | Decimal.D2 d' => digit_unit 2 :: uint_units d'
  | Decimal.D3 d' => digit_unit 3 :: uint_units d'
  | Decimal.D4 d' => digit_unit 4 :: uint_units d'
  | Decimal.D5 d' => digit_unit 5 :: uint_units d'
  | Decimal.D6 d' => digit_unit 6 :: uint_units d'
  | Decimal.D7 d' => digit_unit 7 :: uint_units d'
  | Decimal.D8 d' => digit_unit 8 :: uint_units d'
  | Decimal.D9 d' => digit_unit 9 :: uint_units d'
  end.

(** [Number.prototype.toString] (and string concatenation with a number) on
    a non-negative integer: its decimal digits, no leading zero. *)
Definition Number_toString (n : N) : jsstring := uint_units (N.to_uint n).

(** [(bytes / 1024 / 1024).toFixed(2)].  Dividing by 1024 is exact on
    binary64 numbers, so the receiver of [toFixed] is the real number
    [bytes / 2^20] for every size below [2^53].  [toFixed(2)] takes the
    integer [n] with [n / 100] nearest to it, the larger one on a tie, which
    is [floor ((100 * bytes + 2^19) / 2^20)], and prints [n] with a point
    before its last two digits. *)
Definition megabytes_toFixed2 (bytes : N) : jsstring :=
  let n := (100 * bytes + 524288) / 1048576 in
  Number_toString (n / 100)
    ++ js "." ++ [digit_unit ((n mod 100) / 10); digit_unit (n mod 10)].

(* ===================================================================== *)
(** ** Exceptions and completions *)

Inductive exn : Type :=
| Error (message : jsstring)     (* [new Error(message)] *)
| SyntaxError                    (* thrown by [JSON.parse] *)
| QuotaExceededError             (* thrown by [localStorage.setItem] *)
| ReaderError.                   (* the event [FileReader.onerror] passes on *)

(** How a JavaScript computation ends: with a value or with a thrown
    exception.  [IllTyped] marks a run in which a value left the type that
    TypeScript declares for it (the annotation of line 43 is not checked at
    run time) or the part of that type that the embedding represents (a
    size that is no natural number).  No handler catches it, and the state
    cell that received the value is from then on not the one of the world;
    the statements that do not read that cell run on (see [and_then]). *)
Inductive completion (A : Type) : Type :=
| Normal (a : A)
| Throw (e : exn)
| IllTyped.
Arguments Normal {A} a.
Arguments Throw {A} e.
Arguments IllTyped {A}.

(* ===================================================================== *)
(** ** Files and validation (lines 76-89) *)

Module File.
(** What the pipeline reads of a DOM [File]. *)
Record t : Type := mk { name : jsstring; size : N; type : jsstring }.
End File.

Definition validTypes : list jsstring :=
  [js "image/jpeg"; js "image/jpg"; js "image/png"; js "image/gif";
   js "image/webp"].

Definition maxSize : N := 10 * 1024 * 1024.

Definition validateFile (file : File.t) : completion bool :=
  if negb (Array_includes validTypes (File.type file)) then
    Throw (Error (js "Invalid file type: " ++ File.type file
                    ++ js ". Please upload images only."))
  else if maxSize <? File.size file then
    Throw (Error (js "File too large: " ++ megabytes_toFixed2 (File.size file)
                    ++ js "MB. Maximum size is 10MB."))
  else Normal true.

(* ===================================================================== *)
(** ** Image records (lines 14-22) *)

Module ImageData.
Record t : Type := mk {
  id : jsstring;
  name : jsstring;
  originalName : jsstring;
  src : jsstring;
  size : N;
  type : jsstring;
  uploadDate : jsstring
}.
End ImageData.

(* ===================================================================== *)
(** ** JSON: [JSON.stringify] on image records and [JSON.parse] *)

Module JSON.

(** A parsed JSON text.  A number keeps its decimal literal; the members
    of an object are kept in the order of the text. *)
#[warnings="-register-all"]
Inductive value : Type :=
| Null
| Bool (b : bool)
| Number (d : Decimal.decimal)
| String (s : jsstring)
| Array (elements : list value)
| Object (members : list (jsstring * value)).

(** *** Writing *)

Definition hex_unit (d : N) : code_unit :=
  if d <? 10 then 48 + d else 87 + d.

(** [\uXXXX] with lower-case digits. *)
Definition unicode_escape (c : code_unit) : jsstring :=
  [92; 117; hex_unit ((c / 4096) mod 16); hex_unit ((c / 256) mod 16);
   hex_unit ((c / 16) mod 16); hex_unit (c mod 16)].

Definition is_lead (c : code_unit) : bool := (55296 <=? c) && (c <=? 56319).
Definition is_trail (c : code_unit) : bool := (56320 <=? c) && (c <=? 57343).

(** [QuoteJSONString], without the enclosing quotes, in front of [k]:
    the short escapes, [\u00XX] for the other control characters,
    [\uDXXX] for a surrogate that is not part of a pair, and every other
    code unit as it is. *)
Fixpoint write_chars (s : jsstring) (k : jsstring) : jsstring :=
  match s with
  | [] => k
  | c :: rest =>
      if c =? 8 then 92 :: 98 :: write_chars rest k
      else if c =? 9 then 92 :: 116 :: write_chars rest k
      else if c =? 10 then 92 :: 110 :: write_chars rest k
      else if c =? 12 then 92 :: 102 :: write_chars rest k
      else if c =? 13 then 92 :: 114 :: write_chars rest k
      else if c =? 34 then 92 :: 34 :: write_chars rest k
      else if c =? 92 then 92 :: 92 :: write_chars rest k
      else if c <? 32 then unicode_escape c ++ write_chars rest k
      else if is_lead c then
        match rest with
        | d :: rest' =>
            if is_trail d then c :: d :: write_chars rest' k
            else unicode_escape c ++ write_chars rest k
        | [] => unicode_escape c ++ write_chars rest k
        end
      else if is_trail c then unicode_escape c ++ write_chars rest k
      else c :: write_chars rest k
  end.

Definition write_string (s : jsstring) (k : jsstring) : jsstring :=
  34 :: write_chars s (34 :: k).

Definition write_number (n : N) (k : jsstring) : jsstring :=
  Number_toString n ++ k.

(** A property of an object: the quoted key, a colon, the value. *)
Definition write_key (key : string) (k : jsstring) : jsstring :=
  write_string (js key) (58 :: k).

(** The properties of an image record, in the order in which the object
    literal of lines 141-149 creates them. *)
Definition write_image (img : ImageData.t) (k : jsstring) : jsstring :=
  123 ::
  write_key "id" (write_string (ImageData.id img) (44 ::
  write_key "name" (write_string (ImageData.name img) (44 ::
  write_key "originalName"
    (write_string (ImageData.originalName img) (44 ::
  write_key "src" (write_string (ImageData.src img) (44 ::
  write_key "size" (write_number (ImageData.size img) (44 ::
  write_key "type" (write_string (ImageData.type img) (44 ::
  write_key "uploadDate"
    (write_string (ImageData.uploadDate img) (125 :: k)))))))))))))).

Fixpoint write_images_tail (imgs : list ImageData.t) (k : jsstring)
  : jsstring :=
  match imgs with
  | [] => 93 :: k
  | img :: imgs' => 44 :: write_image img (write_images_tail imgs' k)
  end.

Definition write_images (imgs : list ImageData.t) (k : jsstring)
  : jsstring :=
  91 :: match imgs with
        | [] => 93 :: k
        | img :: imgs' => write_image img (write_images_tail imgs' k)
        end.

(** [JSON.stringify(images)]: no indentation, no white space. *)
Definition stringify (imgs : list ImageData.t) : jsstring :=
  write_images imgs [].

(** *** Reading *)

Definition is_ws (c : code_unit) : bool :=
  (c =? 32) || (c =? 9) || (c =? 10) || (c =? 13).

Fixpoint skip_ws (s : jsstring) : jsstring :=
  match s with
  | c :: rest => if is_ws c then skip_ws rest else s
  | [] => []
  end.

Definition hex_value (c : code_unit) : option N :=
  if (48 <=? c) && (c <=? 57) then Some (c - 48)
  else if (97 <=? c) && (c <=? 102) then Some (c - 87)
  else if (65 <=? c) && (c <=? 70) then Some (c - 55)
  else None.

Definition hex4 (a b c d : code_unit) : option code_unit :=
  match hex_value a, hex_value b, hex_value c, hex_value d with
  | Some x, Some y, Some z, Some w => Some (4096 * x + 256 * y + 16 * z + w)
  | _, _, _, _ => None
  end.

Definition simple_escape (e : code_unit) : option code_unit :=
  if e =? 34 then Some 34
  else if e =? 92 then Some 92
  else if e =? 47 then Some 47
  else if e =? 98 then Some 8
  else if e =? 102 then Some 12
  else if e =? 110 then Some 10
  else if e =? 114 then Some 13
  else if e =? 116 then Some 9
  else None.

Definition cons_to (c : code_unit) (r : option (jsstring * jsstring))
  : option (jsstring * jsstring) :=
  match r with
  | Some (s, rest) => Some (c :: s, rest)
  | None => None
  end.

(** The characters of a string after its opening quote, up to and
    including the closing quote. *)
Fixpoint read_chars (s : jsstring) : option (jsstring * jsstring) :=
  match s with
  | [] => None
  | c :: rest =>
      if c =? 34 then Some ([], rest)
      else if c =? 92 then
        match rest with
        | [] => None
        | e :: rest' =>
            if e =? 117 then
              match rest' with
              | h1 :: h2 :: h3 :: h4 :: rest'' =>
                  match hex4 h1 h2 h3 h4 with
                  | Some u => cons_to u (read_chars rest'')
                  | None => None
                  end
              | _ => None
              end
            else
              match simple_escape e with
              | Some u => cons_to u (read_chars rest')
              | None => None
              end
        end
      else if c <? 32 then None
      else cons_to c (read_chars rest)
  end.

Definition digit_of (c : code_unit)
  : option (Decimal.uint -> Decimal.uint) :=
  if c =? 48 then Some Decimal.D0
  else if c =? 49 then Some Decimal.D1
  else if c =? 50 then Some Decimal.D2
  else if c =? 51 then Some Decimal.D3
  else if c =? 52 then Some Decimal.D4
  else if c =? 53 then Some Decimal.D5
  else if c =? 54 then Some Decimal.D6
  else if c =? 55 then Some Decimal.D7
  else if c =? 56 then Some Decimal.D8
  else if c =? 57 then Some Decimal.D9
  else None.

(** The longest run of digits at the head of [s]. *)
Fixpoint read_digits (s : jsstring) : Decimal.uint * jsstring :=
  match s with
  | [] => (Decimal.Nil, [])
  | c :: rest =>
      match digit_of c with
      | Some D => let (d, rest') := read_digits rest in (D d, rest')
      | None => (Decimal.Nil, s)
      end
  end.

(** [int]: a single zero, or digits that do not start with a zero. *)
Definition read_int (s : jsstring) : option (Decimal.uint * jsstring) :=
  match read_digits s with
  | (Decimal.Nil, _) => None
  | (Decimal.D0 Decimal.Nil, rest) => Some (Decimal.D0 Decimal.Nil, rest)
  | (Decimal.D0 _, _) => None
  | (d, rest) => Some (d, rest)
  end.

(** [frac]: nothing, or a point and at least one digit. *)
Definition read_frac (s : jsstring) : option (Decimal.uint * jsstring) :=
  match s with
  | c :: rest =>
      if c =? 46 then
        match read_digits rest with
        | (Decimal.Nil, _) => None
        | (d, rest') => Some (d, rest')
        end
      else Some (Decimal.Nil, s)
  | [] => Some (Decimal.Nil, s)
  end.

(** An optional sign: [-], and [+] where the grammar allows it. *)
Definition read_sign (plus : bool) (s : jsstring) : bool * jsstring :=
  match s with
  | c :: rest =>
      if c =? 45 then (true, rest)
      else if plus && (c =? 43) then (false, rest)
      else (false, s)
  | [] => (false, s)
  end.

(** [exp]: nothing, or [e] or [E], an optional sign and at least one
    digit. *)
Definition read_exp (s : jsstring)
  : option (option Decimal.int * jsstring) :=
  match s with
  | c :: rest =>
      if (c =? 101) || (c =? 69) then
        let (negative, rest1) := read_sign true rest in
        match read_digits rest1 with
        | (Decimal.Nil, _) => None
        | (d, rest2) =>
            Some (Some (if negative then Decimal.Neg d else Decimal.Pos d),
                  rest2)
        end
      else Some (None, s)
  | [] => Some (None, s)
  end.

Definition read_number (s : jsstring)
  : option (Decimal.decimal * jsstring) :=
  let (negative, s1) := read_sign false s in
  match read_int s1 with
  | None => None
  | Some (i, s2) =>
      let i' := if negative then Decimal.Neg i else Decimal.Pos i in
      match read_frac s2 with
      | None => None
      | Some (f, s3) =>
          match read_exp s3 with
          | None => None
          | Some (None, s4) => Some (Decimal.Decimal i' f, s4)
          | Some (Some e, s4) => Some (Decimal.DecimalExp i' f e, s4)
          end
      end
  end.

Fixpoint strip_prefix (p s : jsstring) : option jsstring :=
  match p, s with
  | [], _ => Some s
  | x :: p', y :: s' => if x =? y then strip_prefix p' s' else None
  | _ :: _, [] => None
  end.

(** Recursive descent over the JSON grammar.  Every call consumes a code
    unit before it calls again, so a fuel above the length of the text is
    never used up. *)
Fixpoint read_value (fuel : nat) (s : jsstring) {struct fuel}
  : option (value * jsstring) :=
  match fuel with
  | O => None
  | S fuel' =>
      match s with
      | [] => None
      | c :: rest =>
          if c =? 34 then
            match read_chars rest with
            | Some (str, rest') => Some (String str, rest')
            | None => None
            end
          else if c =? 91 then
            match skip_ws rest with
            | 93 :: rest' => Some (Array [], rest')
            | rest' =>
                match read_elements fuel' rest' with
                | Some (vs, rest'') => Some (Array vs, rest'')
                | None => None
                end
            end
          else if c =? 123 then
            match skip_ws rest with
            | 125 :: rest' => Some (Object [], rest')
            | rest' =>
                match read_members fuel' rest' with
                | Some (ms, rest'') => Some (Object ms, rest'')
                | None => None
                end
            end
          else if c =? 110 then
            match strip_prefix (js "ull") rest with
            | Some rest' => Some (Null, rest')
            | None => None
            end
          else if c =? 116 then
            match strip_prefix (js "rue") rest with
            | Some rest' => Some (Bool true, rest')
            | None => None
            end
          else if c =? 102 then
            match strip_prefix (js "alse") rest with
            | Some rest' => Some (Bool false, rest')
            | None => None
            end
          else
            match read_number s with
            | Some (d, rest') => Some (Number d, rest')
            | None => None
            end
      end
  end

(** The elements of a non-empty array, after the bracket, up to and
    including the closing bracket. *)
with read_elements (fuel : nat) (s : jsstring) {struct fuel}
  : option (list value * jsstring) :=
  match fuel with
  | O => None
  | S fuel' =>
      match read_value fuel' s with
      | None => None
      | Some (v, rest) =>
          match skip_ws rest with
          | c :: rest' =>
              if c =? 93 then Some ([v], rest')
              else if c =? 44 then
                match read_elements fuel' (skip_ws rest') with
                | Some (vs, rest'') => Some (v :: vs, rest'')
                | None => None
                end
              else None
          | [] => None
          end
      end
  end

(** The members of a non-empty object, after the brace, up to and
    including the closing brace. *)
with read_members (fuel : nat) (s : jsstring) {struct fuel}
  : option (list (jsstring * value) * jsstring) :=
  match fuel with
  | O => None
  | S fuel' =>
      match s with
      | 34 :: rest =>
          match read_chars rest with
          | None => None
          | Some (key, rest1) =>
              match skip_ws rest1 with
              | 58 :: rest2 =>
                  match read_value fuel' (skip_ws rest2) with
                  | None => None
                  | Some (v, rest3) =>
                      match skip_ws rest3 with
                      | c :: rest4 =>
                          if c =? 125 then Some ([(key, v)], rest4)
                          else if c =? 44 then
                            match read_members fuel' (skip_ws rest4) with
                            | Some (ms, rest5) =>
                                Some ((key, v) :: ms, rest5)
                            | None => None
                            end
                          else None
                      | [] => None
                      end
                  end
              | _ => None
              end
          end
      | _ => None
      end
  end.

(** [JSON.parse(text)]: one value, white space around it, nothing else. *)
Definition parse (text : jsstring) : completion value :=
  match read_value (S (length text)) (skip_ws text) with
  | Some (v, rest) =>
      match skip_ws rest with
      | [] => Normal v
      | _ :: _ => Throw SyntaxError
      end
  | None => Throw SyntaxError
  end.

(** *** The view of a parsed value at the type [ImageData[]] *)

(** Property lookup; [JSON.parse] lets the last of several members with
    one key win. *)
Fixpoint get (members : list (jsstring * value)) (key : jsstring)
  : option value :=
  match members with
  | [] => None
  | (k, v) :: members' =>
      match get members' key with
      | Some v' => Some v'
      | None => if jsstring_eqb k key then Some v else None
      end
  end.

Definition get_string (members : list (jsstring * value)) (key : string)
  : option jsstring :=
  match get members (js key) with
  | Some (String s) => Some s
  | _ => None
  end.

(** The natural number that a literal denotes, if it denotes one: the
    digits of its integer and fraction parts, shifted by its exponent
    ([1e3] and [1000.0] denote 1000; [1.5] and [-1] denote no natural
    number).  [JSON.parse] delivers the binary64 number nearest to what
    the literal denotes, which for a natural number below 2^53 is that
    number. *)
Definition natural_of_literal (d : Decimal.decimal) : option N :=
  let '(i, f, e) :=
    match d with
    | Decimal.Decimal i f => (i, f, 0%Z)
    | Decimal.DecimalExp i f e => (i, f, Z.of_int e)
    end in
  let digits := Z.of_int (Decimal.app_int i f) in
  let shift := (e - Z.of_nat (Decimal.nb_digits f))%Z in
  if (digits <? 0)%Z then None
  else if (0 <=? shift)%Z then Some (Z.to_N (digits * 10 ^ shift))
  else if (digits mod 10 ^ (- shift) =? 0)%Z
       then Some (Z.to_N (digits / 10 ^ (- shift)))
       else None.

(** A size is kept as a natural number, as [File.size] delivers it; a
    member [size] that is no number, or a number that is no natural
    number, has no place in an image record of the embedding. *)
Definition get_size (members : list (jsstring * value)) (key : string)
  : option N :=
  match get members (js key) with
  | Some (Number d) => natural_of_literal d
  | _ => None
  end.

Definition as_image (v : value) : option ImageData.t :=
  match v with
  | Object ms =>
      match get_string ms "id", get_string ms "name",
            get_string ms "originalName", get_string ms "src",
            get_size ms "size", get_string ms "type",
            get_string ms "uploadDate" with
      | Some i, Some n, Some o, Some s, Some z, Some t, Some u =>
          Some (ImageData.mk i n o s z t u)
      | _, _, _, _, _, _, _ => None
      end
  | _ => None
  end.

Fixpoint as_image_list (vs : list value) : option (list ImageData.t) :=
  match vs with
  | [] => Some []
  | v :: vs' =>
      match as_image v, as_image_list vs' with
      | Some img, Some imgs => Some (img :: imgs)
      | _, _ => None
      end
  end.

(** [JSON.parse(text)] under the annotation [ImageData[]] of line 43. *)
Definition parse_images (text : jsstring) : completion (list ImageData.t) :=
  match parse text with
  | Normal (Array vs) =>
      match as_image_list vs with
      | Some imgs => Normal imgs
      | None => IllTyped
      end
  | Normal _ => IllTyped
  | Throw e => Throw e
  | IllTyped => IllTyped
  end.

End JSON.

(* ===================================================================== *)
(** ** The state of the component and of the browser around it *)

(** The second argument of a [console.error] call: a string or the caught
    exception. *)
Inductive console_arg : Type :=
| Text (s : jsstring)
| Caught (e : exn).

Record World : Type := mkWorld {
  images : list ImageData.t;              (* line 26 *)
  isDarkMode : bool;                      (* line 28 *)
  uploading : bool;                       (* line 30 *)
  uploadProgress : Q;                     (* line 31 *)
  previewFiles : list File.t;             (* line 33 *)
  fileInput : option jsstring;            (* [fileInputRef.current], its value *)
  darkClass : bool;                       (* the class [dark] of the document *)
  localStorage : gmap (list N) (list N);
  console : list (jsstring * console_arg); (* [console.error] calls, oldest first *)
  progressLog : list Q                    (* arguments of [setUploadProgress], oldest first *)
}.

(** What the browser decides.  The index is the position [i] of the loop
    of lines 136-165 at which the question is asked. *)
Inductive reader_event : Type :=
| OnLoad (result : option jsstring)   (* [reader.result] when it is a string *)
| OnError.

Record Browser : Type := mkBrowser {
  readAsDataURL : nat -> File.t -> reader_event;
  Date_now : nat -> N;
  Math_random_toString36 : nat -> jsstring;  (* [Math.random().toString(36)] *)
  Date_toISOString : nat -> jsstring;
  (** does [setItem key value] exceed the quota of the storage area? *)
  quota_exceeded : gmap (list N) (list N) -> jsstring -> jsstring -> bool
}.

(* ===================================================================== *)
(** ** Computations: state and exceptions *)

Definition M (A : Type) : Type := World -> completion A * World.

Definition ret {A : Type} (a : A) : M A := fun w => (Normal a, w).

Definition bind {A B : Type} (m : M A) (k : A -> M B) : M B :=
  fun w =>
    match m w with
    | (Normal a, w') => k a w'
    | (Throw e, w') => (Throw e, w')
    | (IllTyped, w') => (IllTyped, w')
    end.

Definition throw {A : Type} (e : exn) : M A := fun w => (Throw e, w).

Definition lift {A : Type} (c : completion A) : M A := fun w => (c, w).

(** [try { body } catch (error) { handler }] *)
Definition try_catch {A : Type} (body : M A) (handler : exn -> M A) : M A :=
  fun w =>
    match body w with
    | (Throw e, w') => handler e w'
    | r => r
    end.

(** [try { body } finally { finalizer }] *)
Definition try_finally {A : Type} (body : M A) (finalizer : M unit) : M A :=
  fun w =>
    match body w with
    | (c, w') =>
        match finalizer w' with
        | (Normal _, w'') => (c, w'')
        | (Throw e, w'') => (Throw e, w'')
        | (IllTyped, w'') => (IllTyped, w'')
        end
    end.

(** [first; second] where nothing that [second] reads is written by
    [first]: a value of another type than declared in [first] stops no
    statement of [second]. *)
Definition and_then (first second : M unit) : M unit :=
  fun w =>
    match first w with
    | (Normal _, w') => second w'
    | (Throw e, w') => (Throw e, w')
    | (IllTyped, w') => (IllTyped, snd (second w'))
    end.

Declare Scope js_scope.
Delimit Scope js_scope with M.
Notation "x <- m ;; k" := (bind m (fun x => k))
  (at level 100, m at next level, right associativity) : js_scope.
Notation "m ;; k" := (bind m (fun _ => k))
  (at level 100, right associativity) : js_scope.
Open Scope js_scope.

Definition get {A : Type} (field : World -> A) : M A :=
  fun w => (Normal (field w), w).

Definition setImages (update : list ImageData.t -> list ImageData.t) : M unit :=
  fun w =>
    (Normal tt,
     mkWorld (update (images w)) (isDarkMode w) (uploading w)
       (uploadProgress w) (previewFiles w) (fileInput w) (darkClass w)
       (localStorage w) (console w) (progressLog w)).

Definition setIsDarkMode (b : bool) : M unit :=
  fun w =>
    (Normal tt,
     mkWorld (images w) b (uploading w) (uploadProgress w) (previewFiles w)
       (fileInput w) (darkClass w) (localStorage w) (console w)
       (progressLog w)).

Definition setUploading (b : bool) : M unit :=
  fun w =>
    (Normal tt,
     mkWorld (images w) (isDarkMode w) b (uploadProgress w) (previewFiles w)
       (fileInput w) (darkClass w) (localStorage w) (console w)
       (progressLog w)).

Definition setUploadProgress (p : Q) : M unit :=
  fun w =>
    (Normal tt,
     mkWorld (images w) (isDarkMode w) (uploading w) p (previewFiles w)
       (fileInput w) (darkClass w) (localStorage w) (console w)
       (progressLog w ++ [p])).

Definition setPreviewFiles (fs : list File.t) : M unit :=
  fun w =>
    (Normal tt,
     mkWorld (images w) (isDarkMode w) (uploading w) (uploadProgress w) fs
       (fileInput w) (darkClass w) (localStorage w) (console w)
       (progressLog w)).

(** [if (fileInputRef.current) { fileInputRef.current.value = '' }] *)
Definition clearFileInput : M unit :=
  fun w =>
    (Normal tt,
     mkWorld (images w) (isDarkMode w) (uploading w) (uploadProgress w)
       (previewFiles w)
       (match fileInput w with Some _ => Some [] | None => None end)
       (darkClass w) (localStorage w) (console w) (progressLog w)).

(** [document.documentElement.classList.add('dark')] *)
Definition addDarkClass : M unit :=
  fun w =>
    (Normal tt,
     mkWorld (images w) (isDarkMode w) (uploading w) (uploadProgress w)
       (previewFiles w) (fileInput w) true (localStorage w) (console w)
       (progressLog w)).

Definition console_error (label : jsstring) (arg : console_arg) : M unit :=
  fun w =>
    (Normal tt,
     mkWorld (images w) (isDarkMode w) (uploading w) (uploadProgress w)
       (previewFiles w) (fileInput w) (darkClass w) (localStorage w)
       (console w ++ [(label, arg)]) (progressLog w)).

Definition localStorage_getItem (key : jsstring) : M (option jsstring) :=
  fun w => (Normal (localStorage w !! key), w).

Definition localStorage_setItem (b : Browser) (key value : jsstring)
  : M unit :=
  fun w =>
    if quota_exceeded b (localStorage w) key value then
      (Throw QuotaExceededError, w)
    else
      (Normal tt,
       mkWorld (images w) (isDarkMode w) (uploading w) (uploadProgress w)
         (previewFiles w) (fileInput w) (darkClass w)
         (<[key := value]> (localStorage w)) (console w) (progressLog w)).

(** [await new Promise(resolve => setTimeout(resolve, ms))]: time is not
    part of [World]. *)
Definition sleep (ms : N) : M unit := ret tt.

(** [error.message] *)
Definition message (e : exn) : jsstring :=
  match e with
  | Error m => m
  | SyntaxError => js "SyntaxError"
  | QuotaExceededError => js "QuotaExceededError"
  | ReaderError => js "ReaderError"
  end.

(* ===================================================================== *)
(** ** Loading and saving (lines 39-66) *)

(** Lines 40-49: the gallery is read from the storage area. *)
Definition loadImages : M unit :=
  savedImages <- localStorage_getItem (js "gallery-images") ;;
  match savedImages with
  | Some (c :: text) =>
      try_catch
        (parsedImages <- lift (JSON.parse_images (c :: text)) ;;
         setImages (fun _ => parsedImages))
        (fun error =>
           console_error (js "Error loading saved images:") (Caught error) ;;
           setImages (fun _ => []))
  | Some [] | None => ret tt    (* [null] and the empty string are falsy *)
  end.

(** Lines 52-56: the theme is read from the storage area. *)
Definition loadTheme : M unit :=
  savedTheme <- localStorage_getItem (js "theme-preference") ;;
  match savedTheme with
  | Some theme =>
      if jsstring_eqb theme (js "dark") then
        setIsDarkMode true ;; addDarkClass
      else ret tt
  | None => ret tt
  end.

(** The effect of lines 39-57, run once when the component is mounted.
    The theme is read whatever the gallery part has parsed. *)
Definition loadEffect : M unit := and_then loadImages loadTheme.

(** The effect of lines 60-66, run after every render in which [images]
    is a new array. *)
Definition saveEffect (b : Browser) : M unit :=
  try_catch
    (imgs <- get images ;;
     localStorage_setItem b (js "gallery-images") (JSON.stringify imgs))
    (fun error => console_error (js "Error saving images:") (Caught error)).

(* ===================================================================== *)
(** ** Uploading (lines 92-181) *)

Definition fileToBase64 (b : Browser) (i : nat) (file : File.t) : M jsstring :=
  match readAsDataURL b i file with
  | OnLoad (Some result) => ret result
  | OnLoad None => throw (Error (js "Failed to convert file to base64"))
  | OnError => throw ReaderError
  end.

(** Does [s] match [\.[^/.]+$] from its first code unit on? *)
Definition is_extension (s : jsstring) : bool :=
  match s with
  | 46 :: c :: rest =>
      forallb (fun x => negb ((x =? 47) || (x =? 46))) (c :: rest)
  | _ => false
  end.

(** [name.replace(/\.[^/.]+$/, "")]: the leftmost match is removed. *)
Fixpoint remove_extension (s : jsstring) : jsstring :=
  if is_extension s then []
  else match s with
       | [] => []
       | c :: rest => c :: remove_extension rest
       end.

(** The record of lines 141-149 for the file at position [i]. *)
Definition makeImageData (b : Browser) (i : nat) (file : File.t)
  (base64 : jsstring) : ImageData.t :=
  ImageData.mk
    (Number_toString (Date_now b i)
       ++ String_substr (Math_random_toString36 b i) 2 9)
    (remove_extension (File.name file))
    (File.name file)
    base64
    (File.size file)
    (File.type file)
    (Date_toISOString b i).

(** *** Arithmetic on numbers (line 154)

    The operators [/] and [*] deliver the binary64 number nearest to the
    exact result, ties to the even significand (IEEE 754, 53 bits of
    precision, least normal exponent -1022).  The pipeline applies them to
    positive numbers far from the overflow threshold; infinities, NaN and
    the sign of zero are left out. *)

(** The [e] with [2^e <= x < 2^(e+1)], for positive [x]. *)
Definition floor_log2 (x : Q) : Z :=
  let e := (Z.log2 (Qnum x) - Z.log2 (Zpos (Qden x)))%Z in
  if Qle_bool (2 ^ e) x then e else (e - 1)%Z.

(** The nearest integer, the even one of two equally near. *)
Definition round_half_even (x : Q) : Z :=
  let f := Qfloor x in
  match Qcompare (x - inject_Z f) (1 # 2) with
  | Lt => f
  | Eq => if Z.even f then f else (f + 1)%Z
  | Gt => (f + 1)%Z
  end.

(** The nearest multiple of the unit in the last place of [x]. *)
Definition round_positive (x : Q) : Q :=
  let e := Z.max (floor_log2 x) (-1022) in
  (inject_Z (round_half_even (x / 2 ^ (e - 52))) * 2 ^ (e - 52))%Q.

Definition binary64 (x : Q) : Q :=
  match Qcompare x 0 with
  | Eq => 0%Q
  | Gt => round_positive x
  | Lt => (- round_positive (- x))%Q
  end.

(** [a / b], for [b] other than zero. *)
Definition Number_divide (a b : Q) : Q := binary64 (a / b).

(** [a * b] *)
Definition Number_multiply (a b : Q) : Q := binary64 (a * b).

(** [((i + 1) / validFiles.length) * 100]; the loop runs it with
    [i < validFiles.length], so the divisor is not zero, and an array has
    fewer than 2^32 elements, so [i + 1] and the length are exact. *)
Definition progress_at (i total : nat) : Q :=
  Number_multiply
    (Number_divide (inject_Z (Z.of_nat (i + 1))) (inject_Z (Z.of_nat total)))
    100.

(** The loop of lines 119-127; [validFiles] is the array filled so far. *)
Fixpoint validateAll (fileArray validFiles : list File.t)
  : M (list File.t) :=
  match fileArray with
  | [] => ret validFiles
  | file :: rest =>
      validFiles' <-
        try_catch
          (lift (validateFile file) ;;
           ret (validFiles ++ [file]))
          (fun error =>
             console_error
               (js "File validation failed for " ++ File.name file ++ js ":")
               (Text (message error)) ;;
             ret validFiles) ;;
      validateAll rest validFiles'
  end.

(** The loop of lines 136-165 from position [i] on: [pending] holds
    [validFiles[i]], [validFiles[i+1]], ..., [total] is
    [validFiles.length] and [newImages] the array filled so far. *)
Fixpoint processFiles (b : Browser) (total i : nat) (pending : list File.t)
  (newImages : list ImageData.t) : M (list ImageData.t) :=
  match pending with
  | [] => ret newImages
  | file :: rest =>
      newImages' <-
        try_catch
          (base64 <- fileToBase64 b i file ;;
           let imageData := makeImageData b i file base64 in
           let progress := progress_at i total in
           setUploadProgress progress ;;
           (if (i <? total - 1)%nat then sleep 100 else ret tt) ;;
           ret (newImages ++ [imageData]))
          (fun error =>
             console_error
               (js "Error processing " ++ File.name file ++ js ":")
               (Caught error) ;;
             ret newImages) ;;
      processFiles b total (S i) rest newImages'
  end.

(** The [try] block of lines 114-170. *)
Definition uploadBody (b : Browser) (fileArray : list File.t) : M unit :=
  validFiles <- validateAll fileArray [] ;;
  (if (length validFiles =? 0)%nat then
     throw (Error (js "No valid image files to upload"))
   else ret tt) ;;
  newImages <- processFiles b (length validFiles) 0 validFiles [] ;;
  if (0 <? length newImages)%nat then
    setImages (fun prev => prev ++ newImages)
  else ret tt.

(** [handleFileUpload(files)]; [None] is [null]. *)
Definition handleFileUpload (b : Browser) (files : option (list File.t))
  : M unit :=
  match files with
  | None => ret tt
  | Some fileArray =>
      if (length fileArray =? 0)%nat then ret tt
      else
        setUploading true ;;
        setUploadProgress 0 ;;
        try_finally
          (try_catch
             (uploadBody b fileArray)
             (fun error => console_error (js "Upload error:") (Caught error)))
          (setUploading false ;;
           setUploadProgress 0 ;;
           setPreviewFiles [] ;;
           clearFileInput)
  end.

(* ===================================================================== *)
(** ** Deleting and searching (lines 212-219) *)

Definition deleteImage (imageId : jsstring) : M unit :=
  setImages
    (List.filter (fun img => negb (jsstring_eqb (ImageData.id img) imageId))).

Section Search.

(** [String.prototype.toLowerCase] follows the Unicode case tables, which
    are not part of the source: it is a parameter here. *)
Variable toLowerCase : jsstring -> jsstring.

Definition filteredImages (imgs : list ImageData.t) (searchTerm : jsstring)
  : list ImageData.t :=
  List.filter
    (fun image =>
       String_includes (toLowerCase (ImageData.name image))
         (toLowerCase searchTerm))
    imgs.

End Search.

(* ===================================================================== *)
(** ** Notions used to state the properties *)

(** [validateFile] returned, it did not throw. *)
Definition accepts (file : File.t) : bool :=
  match validateFile file with
  | Normal _ => true
  | _ => false
  end.

(** The two rejections of the validator and the message each one carries. *)
Inductive rejection : Type :=
| invalid_type (observed : jsstring)
| too_large (megabytes : jsstring).

Definition rejection_message (r : rejection) : jsstring :=
  match r with
  | invalid_type observed =>
      js "Invalid file type: " ++ observed ++ js ". Please upload images only."
  | too_large megabytes =>
      js "File too large: " ++ megabytes ++ js "MB. Maximum size is 10MB."
  end.

Definition rejects_with (file : File.t) (r : rejection) : Prop :=
  validateFile file = Throw (Error (rejection_message r)).

(** The contract of the validator, read with each reason decided by its
    own condition alone. *)
Definition validate_contract_as_written (file : File.t) : Prop :=
  (validateFile file = Normal true <->
     In (File.type file) validTypes /\ File.size file <= maxSize)
  /\ (~ In (File.type file) validTypes ->
      rejects_with file (invalid_type (File.type file)))
  /\ (maxSize < File.size file ->
      rejects_with file (too_large (megabytes_toFixed2 (File.size file)))).

(** The component as [useState] initialises it (lines 26-33), mounted, over
    a given storage area. *)
Definition initialWorld (storage : gmap (list N) (list N)) : World :=
  mkWorld [] false false 0 [] (Some []) false storage [] [].

(** The string the reader delivers for the file at position [i], if it
    delivers one. *)
Definition encoded (b : Browser) (i : nat) (file : File.t) : option jsstring :=
  match readAsDataURL b i file with
  | OnLoad (Some result) => Some result
  | _ => None
  end.

(** The records, the progress values and the console entries that the
    loop of lines 136-165 produces from position [i] on. *)
Fixpoint produced (b : Browser) (i : nat) (pending : list File.t)
  : list ImageData.t :=
  match pending with
  | [] => []
  | file :: rest =>
      match encoded b i file with
      | Some base64 => makeImageData b i file base64 :: produced b (S i) rest
      | None => produced b (S i) rest
      end
  end.

Fixpoint reported (b : Browser) (total i : nat) (pending : list File.t)
  : list Q :=
  match pending with
  | [] => []
  | file :: rest =>
      match encoded b i file with
      | Some _ => progress_at i total :: reported b total (S i) rest
      | None => reported b total (S i) rest
      end
  end.

Definition reader_failure (b : Browser) (i : nat) (file : File.t) : exn :=
  match readAsDataURL b i file with
  | OnError => ReaderError
  | _ => Error (js "Failed to convert file to base64")
  end.

Fixpoint processing_log (b : Browser) (i : nat) (pending : list File.t)
  : list (jsstring * console_arg) :=
  match pending with
  | [] => []
  | file :: rest =>
      match encoded b i file with
      | Some _ => processing_log b (S i) rest
      | None =>
          (js "Error processing " ++ File.name file ++ js ":",
           Caught (reader_failure b i file))
          :: processing_log b (S i) rest
      end
  end.

(** The console entries of the loop of lines 119-127. *)
Fixpoint validation_log (fileArray : list File.t)
  : list (jsstring * console_arg) :=
  match fileArray with
  | [] => []
  | file :: rest =>
      match validateFile file with
      | Throw e =>
          (js "File validation failed for " ++ File.name file ++ js ":",
           Text (message e)) :: validation_log rest
      | _ => validation_log rest
      end
  end.

(** A record that the loop builds from a file. *)
Definition built_from (file : File.t) (img : ImageData.t) : Prop :=
  ImageData.originalName img = File.name file
  /\ ImageData.name img = remove_extension (File.name file)
  /\ ImageData.size img = File.size file
  /\ ImageData.type img = File.type file.

(** The values [1/K * 100, 2/K * 100, ..., K/K * 100]. *)
Definition fractions_of (K : nat) : list Q :=
  List.map (fun j => (inject_Z (Z.of_nat j) / inject_Z (Z.of_nat K) * 100)%Q)
    (seq 1 K).

(** The same values as the operators of line 154 deliver them. *)
Definition rounded_fractions_of (K : nat) : list Q :=
  List.map
    (fun j =>
       Number_multiply
         (Number_divide (inject_Z (Z.of_nat j)) (inject_Z (Z.of_nat K))) 100)
    (seq 1 K).

(** The exact quotient [(i + 1) / total]. *)
Definition ratio (i total : nat) : Q :=
  (inject_Z (Z.of_nat (i + 1)) / inject_Z (Z.of_nat total))%Q.

(** The files of a list with their positions in it. *)
Definition positions (valid : list File.t) : list (nat * File.t) :=
  combine (seq 0 (length valid)) valid.

(** Does the reader deliver a string for the file at this position? *)
Definition read_ok (b : Browser) (p : nat * File.t) : bool :=
  match encoded b (fst p) (snd p) with
  | Some _ => true
  | None => false
  end.

(** The record the loop builds for the file at a position, if the reader
    delivers a string for it. *)
Definition record_at (b : Browser) (p : nat * File.t) : list ImageData.t :=
  match encoded b (fst p) (snd p) with
  | Some base64 => [makeImageData b (fst p) (snd p) base64]
  | None => []
  end.

(** The value of a binary64 number of the Standard Library's
    specification, and line 154 computed with its operations. *)
Definition SpecFloat_value (f : spec_float) : Q :=
  match f with
  | S754_finite s m e =>
      ((if s then -1 else 1) * inject_Z (Zpos m) * 2 ^ e)%Q
  | _ => 0%Q
  end.

Definition SpecFloat_of_nat (n : nat) : spec_float :=
  binary_normalize 53 1024 (Z.of_nat n) 0 false.

Definition SpecFloat_progress (i total : nat) : spec_float :=
  SFmul 53 1024
    (SFdiv 53 1024 (SpecFloat_of_nat (i + 1)) (SpecFloat_of_nat total))
    (SpecFloat_of_nat 100).

(** The progress values an upload reports between the reset of line 112
    and the reset of line 175. *)
Definition progress_during (b : Browser) (files : list File.t) (w : World)
  : list Q :=
  removelast
    (tl (skipn (length (progressLog w))
           (progressLog (snd (handleFileUpload b (Some files) w))))).

Definition progress_as_written (b : Browser) (files : list File.t)
  (w : World) : Prop :=
  Forall2 Qeq (progress_during b files w)
    (fractions_of (length (List.filter accepts files))).

(** [save(gallery)] in one session, [load()] at the start of the next. *)
Definition save_then_load (b : Browser) (w : World) : completion unit * World :=
  loadEffect (initialWorld (localStorage (snd (saveEffect b w)))).

Definition round_trip_as_written (b : Browser) (w : World) : Prop :=
  images (snd (save_then_load b w)) = images w.

(** [load()] at start-up over a storage area that holds [blob] under the
    key of the gallery. *)
Definition load_of (blob : jsstring) (storage : gmap (list N) (list N))
  : completion unit * World :=
  loadEffect (initialWorld (<[js "gallery-images" := blob]> storage)).

Definition load_fallback_as_written (blob : jsstring)
  (storage : gmap (list N) (list N)) : Prop :=
  JSON.parse blob = Throw SyntaxError ->
  fst (load_of blob storage) = Normal tt
  /\ images (snd (load_of blob storage)) = []
  /\ In (js "Error loading saved images:", Caught SyntaxError)
       (console (snd (load_of blob storage))).

(** The letters [A]-[Z] in lower case, every other code unit as it is. *)
Definition ascii_lower (c : code_unit) : code_unit :=
  if (65 <=? c) && (c <=? 90) then c + 32 else c.

Definition is_ascii (c : code_unit) : Prop := c < 128.

(** [name] contains [query] as a substring once both are in lower case. *)
Definition contains_ignoring_case (toLowerCase : jsstring -> jsstring)
  (name query : jsstring) : Prop :=
  exists before after : jsstring,
    toLowerCase name = before ++ toLowerCase query ++ after.


(** One operation on the gallery: loading, uploading, deleting, and the
    saving that follows a change. *)
Inductive operation : World -> World -> Prop :=
| op_load (w : World) : operation w (snd (loadEffect w))
| op_upload (b : Browser) (files : option (list File.t)) (w : World) :
    operation w (snd (handleFileUpload b files w))
| op_delete (imageId : jsstring) (w : World) :
    operation w (snd (deleteImage imageId w))
| op_save (b : Browser) (w : World) :
    operation w (snd (saveEffect b w)).




(** The value that [JSON.parse] builds for the text of an image record. *)
Definition image_value (img : ImageData.t) : JSON.value :=
  JSON.Object
    [(js "id", JSON.String (ImageData.id img));
     (js "name", JSON.String (ImageData.name img));
     (js "originalName", JSON.String (ImageData.originalName img));
     (js "src", JSON.String (ImageData.src img));
     (js "size",
      JSON.Number
        (Decimal.Decimal (Decimal.Pos (N.to_uint (ImageData.size img)))
           Decimal.Nil));
     (js "type", JSON.String (ImageData.type img));
     (js "uploadDate", JSON.String (ImageData.uploadDate img))].

(** [w] with entries added to its console. *)
Definition logged (w : World) (entries : list (jsstring * console_arg))
  : World :=
  mkWorld (images w) (isDarkMode w) (uploading w) (uploadProgress w)
    (previewFiles w) (fileInput w) (darkClass w) (localStorage w)
    (console w ++ entries) (progressLog w).

(** [w] after the loop of lines 136-165 has reported [values] and logged
    [entries]. *)
Definition progressed (w : World) (values : list Q)
  (entries : list (jsstring * console_arg)) : World :=
  mkWorld (images w) (isDarkMode w) (uploading w)
    (List.last values (uploadProgress w)) (previewFiles w) (fileInput w)
    (darkClass w) (localStorage w) (console w ++ entries)
    (progressLog w ++ values).

(** The console entries of an upload of a non-empty batch. *)
Definition upload_log (b : Browser) (files : list File.t)
  : list (jsstring * console_arg) :=
  validation_log files
    ++ match List.filter accepts files with
       | [] =>
           [(js "Upload error:",
             Caught (Error (js "No valid image files to upload")))]
       | valid => processing_log b 0 valid
       end.

(** The world that an upload of a non-empty batch leaves. *)
Definition uploaded (b : Browser) (files : list File.t) (w : World) : World :=
  let valid := List.filter accepts files in
  mkWorld (images w ++ produced b 0 valid) (isDarkMode w) false 0 []
    (match fileInput w with Some _ => Some [] | None => None end)
    (darkClass w) (localStorage w)
    (console w ++ upload_log b files)
    (progressLog w ++ [0%Q] ++ reported b (length valid) 0 valid ++ [0%Q]).

(* ===================================================================== *)
(** ** Sample data *)

Definition a_png : File.t :=
  File.mk (js "a.png") 2097152 (js "image/png").
Definition b_exe : File.t :=
  File.mk (js "b.exe") 1048576 (js "application/exe").
Definition big_jpeg : File.t :=
  File.mk (js "big.jpg") 11534336 (js "image/jpeg").
Definition big_exe : File.t :=
  File.mk (js "big.exe") 11534336 (js "application/exe").

(** A browser whose reader delivers a data URL for every file and whose
    storage area takes every write. *)
Definition reliable_browser : Browser :=
  mkBrowser
    (fun _ file =>
       OnLoad (Some (js "data:" ++ File.type file ++ js ";base64,AAAA")))
    (fun i => 1730000000000 + N.of_nat i)
    (fun _ => js "0.4fzyo82mvyr")
    (fun _ => js "2024-10-27T03:33:20.000Z")
    (fun _ _ _ => false).

(** A browser whose reader fails on every file. *)
Definition unreadable_browser : Browser :=
  mkBrowser (fun _ _ => OnError) (Date_now reliable_browser)
    (Math_random_toString36 reliable_browser)
    (Date_toISOString reliable_browser) (fun _ _ _ => false).

(** A browser whose storage area is full. *)
Definition full_browser : Browser :=
  mkBrowser (readAsDataURL reliable_browser) (Date_now reliable_browser)
    (Math_random_toString36 reliable_browser)
    (Date_toISOString reliable_browser) (fun _ _ _ => true).

Definition cat_image : ImageData.t :=
  ImageData.mk (js "17300000000004fzyo82mv") (js "CAT_photo")
    (js "CAT_photo.png") (js "data:image/png;base64,AAAA") 2097152
    (js "image/png") (js "2024-10-27T03:33:20.000Z").

Definition dog_image : ImageData.t :=
  ImageData.mk (js "17300000000019k2lq0xzt") (js "dog")
    (js "dog.gif") (js "data:image/gif;base64,AAAA") 4096
    (js "image/gif") (js "2024-10-27T03:33:21.000Z").

(** An object that a gallery can hold only if it was not uploaded through
    the validator. *)
Definition exe_image : ImageData.t :=
  ImageData.mk (js "1") (js "tool") (js "tool.exe") (js "data:,") 1
    (js "application/exe") (js "2024-10-27T03:33:22.000Z").

Definition gallery_world (imgs : list ImageData.t) : World :=
  mkWorld imgs false false 0 [] (Some []) false ∅ [] [].

(* ===================================================================== *)
(** ** The theme (lines 68-73) *)

(** [document.documentElement.classList.toggle('dark')] *)
Definition toggleDarkClass : M unit :=
  fun w =>
    (Normal tt,
     mkWorld (images w) (isDarkMode w) (uploading w) (uploadProgress w)
       (previewFiles w) (fileInput w) (negb (darkClass w)) (localStorage w)
       (console w) (progressLog w)).

(** [toggleTheme()]: its three statements read the [isDarkMode] of the
    render that created the handler; the write is not guarded. *)
Definition toggleTheme (b : Browser) : M unit :=
  dark <- get isDarkMode ;;
  setIsDarkMode (negb dark) ;;
  toggleDarkClass ;;
  localStorage_setItem b (js "theme-preference")
    (if negb dark then js "dark" else js "light").

(** One step of a session: an operation on the gallery or a click on the
    theme button. *)
Inductive session_step : World -> World -> Prop :=
| step_operation (w w' : World) : operation w w' -> session_step w w'
| step_toggle (b : Browser) (w : World) :
    session_step w (snd (toggleTheme b w)).

Inductive session (storage : gmap (list N) (list N)) : World -> Prop :=
| session_start : session storage (initialWorld storage)
| session_next (w w' : World) :
    session storage w -> session_step w w' -> session storage w'.

(** The string that stands for a theme in the storage area. *)
Definition theme_name (dark : bool) : jsstring :=
  if dark then js "dark" else js "light".

(* ===================================================================== *)
(** ** Strings *)

Lemma jsstring_eqb_eq (a b : jsstring) : jsstring_eqb a b = true <-> a = b.
Proof.
  revert b; induction a as [|x a IH]; intros [|y b]; simpl; split;
    try congruence; try reflexivity.
  - intros H. apply andb_true_iff in H as [Hx Hab].
    apply N.eqb_eq in Hx. apply IH in Hab. congruence.
  - intros H. injection H as -> ->.
    rewrite N.eqb_refl. simpl. now apply IH.
Qed.

Lemma jsstring_eqb_refl (a : jsstring) : jsstring_eqb a a = true.
Proof. now apply jsstring_eqb_eq. Qed.

Lemma Array_includes_In (arr : list jsstring) (x : jsstring) :
  Array_includes arr x = true <-> In x arr.
Proof.
  unfold Array_includes. rewrite List.existsb_exists. split.
  - intros (y & Hy & Heq). apply jsstring_eqb_eq in Heq. now subst.
  - intros H. exists x. split; [assumption | apply jsstring_eqb_refl].
Qed.

Lemma starts_with_prefix (needle hay : jsstring) :
  starts_with needle hay = true <-> exists after, hay = needle ++ after.
Proof.
  revert hay; induction needle as [|x needle IH]; intros hay; simpl.
  - split; [intros _; now exists hay | reflexivity].
  - destruct hay as [|y hay].
    + split; [discriminate | intros (after & H); discriminate].
    + rewrite andb_true_iff, N.eqb_eq, IH. split.
      * intros (-> & after & ->). now exists after.
      * intros (after & H). injection H as -> ->. split; [reflexivity|].
        now exists after.
Qed.

Lemma String_includes_substring (hay needle : jsstring) :
  String_includes hay needle = true <->
  exists before after, hay = before ++ needle ++ after.
Proof.
  induction hay as [|c hay IH]; simpl.
  - rewrite orb_false_r, starts_with_prefix. split.
    + intros (after & H). now exists [], after.
    + intros (before & after & H). destruct before as [|x before].
      * now exists after.
      * discriminate.
  - rewrite orb_true_iff, starts_with_prefix, IH. split.
    + intros [(after & H) | (before & after & H)].
      * now exists [], after.
      * exists (c :: before), after. simpl. now rewrite H.
    + intros (before & after & H). destruct before as [|x before].
      * left. now exists after.
      * right. injection H as -> ->. now exists before, after.
Qed.

(* ===================================================================== *)
(** ** The validator *)

Lemma validateFile_cases (file : File.t) :
  (In (File.type file) validTypes /\ File.size file <= maxSize
   /\ validateFile file = Normal true)
  \/ (~ In (File.type file) validTypes
      /\ rejects_with file (invalid_type (File.type file)))
  \/ (In (File.type file) validTypes /\ maxSize < File.size file
      /\ rejects_with file
           (too_large (megabytes_toFixed2 (File.size file)))).
Proof.
  unfold rejects_with, validateFile, rejection_message.
  destruct (Array_includes validTypes (File.type file)) eqn:Hin; simpl.
  - apply Array_includes_In in Hin.
    destruct (maxSize <? File.size file) eqn:Hsz.
    + apply N.ltb_lt in Hsz. right; right. auto.
    + apply N.ltb_ge in Hsz. left. auto.
  - right; left. split; [|reflexivity].
    intros H. apply (proj2 (Array_includes_In validTypes _)) in H.
    congruence.
Qed.

Lemma validateFile_not_IllTyped (file : File.t) : validateFile file <> IllTyped.
Proof.
  destruct (validateFile_cases file) as [(_ & _ & H) | [(_ & H) | (_ & _ & H)]];
    unfold rejects_with in *; congruence.
Qed.

(* ===================================================================== *)
(** ** Running the upload *)

Lemma logged_nil (w : World) : logged w [] = w.
Proof. destruct w; unfold logged; simpl. now rewrite List.app_nil_r. Qed.

Lemma last_cons_default {A : Type} (l : list A) (a d : A) :
  List.last (a :: l) d = List.last l a.
Proof.
  revert a d; induction l as [|x l IH]; intros a d; [reflexivity|].
  change (List.last (a :: x :: l) d) with (List.last (x :: l) d).
  now rewrite !IH.
Qed.

Lemma progressed_nil (w : World) : progressed w [] [] = w.
Proof. destruct w; unfold progressed; simpl. now rewrite !List.app_nil_r. Qed.

Lemma validateAll_run (fileArray validFiles : list File.t) (w : World) :
  validateAll fileArray validFiles w
  = (Normal (validFiles ++ List.filter accepts fileArray),
     logged w (validation_log fileArray)).
Proof.
  revert validFiles w.
  induction fileArray as [|file rest IH]; intros validFiles w.
  - simpl. unfold ret. now rewrite List.app_nil_r, logged_nil.
  - cbn [validateAll validation_log List.filter].
    unfold bind at 1. unfold try_catch, bind, lift, accepts.
    destruct (validateFile file) as [v|e|] eqn:Hv.
    + unfold ret. rewrite IH. now rewrite <- List.app_assoc.
    + unfold console_error, ret. rewrite IH.
      f_equal. unfold logged; simpl. now rewrite <- List.app_assoc.
    + now apply validateFile_not_IllTyped in Hv.
Qed.

Ltac world_fields :=
  cbn [images isDarkMode uploading uploadProgress previewFiles fileInput
       darkClass localStorage console progressLog].

Lemma processFiles_run (b : Browser) (total : nat) (pending : list File.t) :
  forall (i : nat) (newImages : list ImageData.t) (w : World),
    processFiles b total i pending newImages w
    = (Normal (newImages ++ produced b i pending),
       progressed w (reported b total i pending)
         (processing_log b i pending)).
Proof.
  induction pending as [|file rest IH]; intros i newImages w.
  - simpl. unfold ret. now rewrite List.app_nil_r, progressed_nil.
  - cbn [processFiles produced reported processing_log].
    unfold bind at 1. unfold try_catch, bind at 1.
    unfold fileToBase64, encoded, reader_failure.
    destruct (readAsDataURL b i file) as [[result|]|] eqn:Hr.
    + unfold ret at 1, bind, setUploadProgress, sleep, ret.
      destruct (i <? total - 1)%nat; rewrite IH; rewrite <- List.app_assoc;
        f_equal; unfold progressed; world_fields;
        rewrite last_cons_default, <- List.app_assoc; reflexivity.
    + unfold throw, bind, console_error, ret. rewrite IH.
      f_equal. unfold progressed; world_fields. now rewrite <- List.app_assoc.
    + unfold throw, bind, console_error, ret. rewrite IH.
      f_equal. unfold progressed; world_fields. now rewrite <- List.app_assoc.
Qed.

Lemma produced_nil_reported (b : Browser) (total : nat)
  (pending : list File.t) (i : nat) :
  produced b i pending = [] -> reported b total i pending = [].
Proof.
  revert i; induction pending as [|file rest IH]; intros i; simpl;
    [reflexivity|].
  destruct (encoded b i file); [discriminate | apply IH].
Qed.

Ltac run_handlers :=
  cbv beta iota zeta delta
    [bind ret throw lift try_catch try_finally and_then get setImages setIsDarkMode
     setUploading setUploadProgress setPreviewFiles clearFileInput
     addDarkClass console_error localStorage_getItem sleep logged progressed
     images isDarkMode uploading uploadProgress previewFiles fileInput
     darkClass localStorage console progressLog fst snd].

Lemma handleFileUpload_run (b : Browser) (files : list File.t) (w : World) :
  files <> [] ->
  handleFileUpload b (Some files) w = (Normal tt, uploaded b files w).
Proof.
  intros Hne. destruct files as [|file0 rest]; [congruence|].
  unfold handleFileUpload. cbn [length Nat.eqb].
  set (files := file0 :: rest). destruct w.
  unfold uploadBody, uploaded, upload_log.
  run_handlers. rewrite validateAll_run. cbn [app].
  destruct (List.filter accepts files) as [|v valid] eqn:Hvalid.
  - run_handlers. cbn [length Nat.eqb]. run_handlers.
    cbn [produced reported app].
    now rewrite !List.app_nil_r, <- !List.app_assoc.
  - run_handlers. cbn [length Nat.eqb]. run_handlers.
    rewrite processFiles_run. cbn [app].
    destruct (produced b 0 (v :: valid)) as [|img imgs] eqn:Hprod.
    + rewrite (produced_nil_reported _ _ _ _ Hprod).
      cbn [length Nat.ltb Nat.leb]. run_handlers. cbn [List.last app].
      now rewrite !List.app_nil_r, <- !List.app_assoc.
    + cbn [length Nat.ltb Nat.leb]. run_handlers.
      now rewrite <- !List.app_assoc.
Qed.
(* ===================================================================== *)
(** ** What the processing loop produces *)

Lemma produced_built_from (b : Browser) (pending : list File.t) :
  forall i : nat,
    (forall (j : nat) (file : File.t),
        nth_error pending j = Some file ->
        encoded b (i + j) file <> None) ->
    Forall2 built_from pending (produced b i pending).
Proof.
  induction pending as [|file rest IH]; intros i Hall; simpl.
  - constructor.
  - pose proof (Hall 0%nat file eq_refl) as H0.
    rewrite Nat.add_0_r in H0.
    destruct (encoded b i file) as [base64|]; [|congruence].
    constructor.
    + unfold built_from, makeImageData; simpl. auto.
    + apply IH. intros j f Hj.
      replace (S i + j)%nat with (i + S j)%nat by lia.
      now apply Hall.
Qed.

Lemma reported_all (b : Browser) (total : nat) (pending : list File.t) :
  forall i : nat,
    (forall (j : nat) (file : File.t),
        nth_error pending j = Some file ->
        encoded b (i + j) file <> None) ->
    reported b total i pending
    = List.map (fun j => progress_at j total) (seq i (length pending)).
Proof.
  induction pending as [|file rest IH]; intros i Hall; simpl.
  - reflexivity.
  - pose proof (Hall 0%nat file eq_refl) as H0.
    rewrite Nat.add_0_r in H0.
    destruct (encoded b i file) as [base64|]; [|congruence].
    f_equal. apply IH. intros j f Hj.
    replace (S i + j)%nat with (i + S j)%nat by lia.
    now apply Hall.
Qed.

Lemma reported_positions (b : Browser) (total : nat) (pending : list File.t) :
  forall i : nat,
    Forall
      (fun p => exists j : nat,
           (i <= j < i + length pending)%nat /\ p = progress_at j total)
      (reported b total i pending).
Proof.
  induction pending as [|file rest IH]; intros i; simpl.
  - constructor.
  - assert (Htail :
      Forall
        (fun p => exists j : nat,
             (i <= j < i + S (length rest))%nat /\ p = progress_at j total)
        (reported b total (S i) rest)).
    { eapply List.Forall_impl; [|apply IH].
      intros p (j & Hj & Hp). exists j. split; [lia | assumption]. }
    destruct (encoded b i file); [|assumption].
    constructor; [|assumption].
    exists i. split; [lia | reflexivity].
Qed.

Lemma inject_nat_pos (n : nat) : (0 < n)%nat -> (0 < inject_Z (Z.of_nat n))%Q.
Proof.
  intros H. change 0%Q with (inject_Z 0). rewrite <- Zlt_Qlt. lia.
Qed.

Lemma reported_filter_positions (b : Browser) (total : nat)
  (pending : list File.t) :
  forall i : nat,
    reported b total i pending
    = List.map (fun p => progress_at (fst p) total)
        (List.filter (read_ok b) (combine (seq i (length pending)) pending)).
Proof.
  induction pending as [|file rest IH]; intros i; simpl.
  - reflexivity.
  - unfold read_ok at 1. cbn [fst snd].
    destruct (encoded b i file); cbn [List.map fst]; now rewrite IH.
Qed.

Lemma produced_flat_map (b : Browser) (pending : list File.t) :
  forall i : nat,
    produced b i pending
    = flat_map (record_at b) (combine (seq i (length pending)) pending).
Proof.
  induction pending as [|file rest IH]; intros i; simpl.
  - reflexivity.
  - unfold record_at at 1. cbn [fst snd].
    destruct (encoded b i file); cbn [app]; now rewrite IH.
Qed.

Lemma rounded_fractions_of_progress_at (K : nat) :
  rounded_fractions_of K = List.map (fun j => progress_at j K) (seq 0 K).
Proof.
  unfold rounded_fractions_of. rewrite <- List.seq_shift, List.map_map.
  apply List.map_ext. intros j. unfold progress_at.
  now rewrite Nat.add_1_r.
Qed.

(* ===================================================================== *)
(** ** Rounding to binary64 *)

Section Binary64.
Local Open Scope Q_scope.

Lemma two_power_pos (e : Z) : 0 < 2 ^ e.
Proof. apply Qpower_0_lt. reflexivity. Qed.

Lemma two_power_succ (e : Z) : 2 ^ (e + 1) == 2 * 2 ^ e.
Proof.
  rewrite Qpower_plus by discriminate. change (2 ^ 1) with 2. ring.
Qed.

Lemma floor_log2_spec (x : Q) :
  0 < x -> 2 ^ floor_log2 x <= x /\ x < 2 ^ (floor_log2 x + 1).
Proof.
  intros Hx. unfold floor_log2.
  destruct x as [n d]. cbn [Qnum Qden].
  assert (Hn : (0 < n)%Z).
  { unfold Qlt in Hx. cbn in Hx. lia. }
  set (a := Z.log2 n). set (c := Z.log2 (Z.pos d)).
  assert (Ha : (2 ^ a <= n < 2 ^ (a + 1))%Z).
  { replace (a + 1)%Z with (Z.succ a) by lia. apply Z.log2_spec. assumption. }
  assert (Hc : (2 ^ c <= Z.pos d < 2 ^ (c + 1))%Z).
  { replace (c + 1)%Z with (Z.succ c) by lia. apply Z.log2_spec. lia. }
  assert (Ha0 : (0 <= a)%Z) by apply Z.log2_nonneg.
  assert (Hc0 : (0 <= c)%Z) by apply Z.log2_nonneg.
  assert (Hpa : inject_Z (2 ^ a) == 2 ^ a) by (apply Zpower_Qpower; assumption).
  assert (Hpc : inject_Z (2 ^ c) == 2 ^ c) by (apply Zpower_Qpower; assumption).
  assert (Hsplit : 2 ^ a == 2 ^ (a - c) * 2 ^ c).
  { rewrite <- Qpower_plus by discriminate. replace (a - c + c)%Z with a by lia.
    reflexivity. }
  assert (Hx' : n # d == inject_Z n / inject_Z (Z.pos d)) by apply Qmake_Qdiv.
  assert (Hd : 0 < inject_Z (Z.pos d)).
  { replace 0 with (inject_Z 0) by reflexivity. rewrite <- Zlt_Qlt. lia. }
  assert (Hnd : (n # d) * inject_Z (Z.pos d) == inject_Z n).
  { rewrite Hx'. field. intros E. rewrite E in Hd. discriminate Hd. }
  pose proof (two_power_pos (a - c)) as Hp.
  pose proof (two_power_pos c) as Hpc0.
  assert (Hn1 : 2 ^ a <= inject_Z n).
  { rewrite <- Hpa. rewrite <- Zle_Qle. lia. }
  assert (Hn2 : inject_Z n < 2 * 2 ^ a).
  { rewrite <- Hpa. replace 2 with (inject_Z 2) at 1 by reflexivity.
    rewrite <- inject_Z_mult. rewrite <- Zlt_Qlt.
    replace (2 ^ (a + 1))%Z with (2 * 2 ^ a)%Z in Ha by (rewrite Z.pow_add_r; lia).
    lia. }
  assert (Hd1 : 2 ^ c <= inject_Z (Z.pos d)).
  { rewrite <- Hpc. rewrite <- Zle_Qle. lia. }
  assert (Hd2 : inject_Z (Z.pos d) < 2 * 2 ^ c).
  { rewrite <- Hpc. replace 2 with (inject_Z 2) at 1 by reflexivity.
    rewrite <- inject_Z_mult. rewrite <- Zlt_Qlt.
    replace (2 ^ (c + 1))%Z with (2 * 2 ^ c)%Z in Hc by (rewrite Z.pow_add_r; lia).
    lia. }
  (* 2^(a-c-1) < x < 2^(a-c+1) *)
  assert (Hup : (n # d) < 2 * 2 ^ (a - c)).
  { apply Qnot_le_lt. intros Hle.
    assert (2 * 2 ^ (a - c) * 2 ^ c <= (n # d) * inject_Z (Z.pos d)).
    { apply Qle_trans with ((n # d) * 2 ^ c).
      - apply Qmult_le_compat_r; [assumption | apply Qlt_le_weak; assumption].
      - rewrite (Qmult_comm (n # d)), (Qmult_comm (n # d)).
        apply Qmult_le_compat_r; [assumption | apply Qlt_le_weak; assumption]. }
    rewrite Hnd in H. lra. }
  assert (Hlo : 2 ^ (a - c) < 2 * (n # d)).
  { apply Qnot_le_lt. intros Hle.
    assert (2 * (n # d) * inject_Z (Z.pos d) < 2 ^ (a - c) * (2 * 2 ^ c)).
    { apply Qle_lt_trans with (2 ^ (a - c) * inject_Z (Z.pos d)).
      - apply Qmult_le_compat_r; [assumption | apply Qlt_le_weak; assumption].
      - apply Qmult_lt_l; assumption. }
    assert (2 * (n # d) * inject_Z (Z.pos d) == 2 * inject_Z n) by (rewrite <- Hnd; ring).
    lra. }
  destruct (Qle_bool (2 ^ (a - c)) (n # d)) eqn:E.
  - apply Qle_bool_iff in E. split; [assumption |].
    rewrite two_power_succ. assumption.
  - assert (Hlt : (n # d) < 2 ^ (a - c)).
    { apply Qnot_le_lt. intros Hle. apply Qle_bool_iff in Hle. congruence. }
    replace (a - c - 1 + 1)%Z with (a - c)%Z by lia.
    split; [| assumption].
    pose proof (two_power_succ (a - c - 1)) as Hs.
    replace (a - c - 1 + 1)%Z with (a - c)%Z in Hs by lia.
    lra.
Qed.

Lemma floor_log2_unique (x : Q) (e : Z) :
  2 ^ e <= x -> x < 2 ^ (e + 1) -> floor_log2 x = e.
Proof.
  intros H1 H2.
  assert (Hx : 0 < x) by (pose proof (two_power_pos e); lra).
  destruct (floor_log2_spec x Hx) as [H3 H4].
  assert (1 < 2) by reflexivity.
  assert (floor_log2 x < e + 1)%Z.
  { apply Qpower_lt_compat_l_inv with 2; [| assumption]. lra. }
  assert (e < floor_log2 x + 1)%Z.
  { apply Qpower_lt_compat_l_inv with 2; [| assumption]. lra. }
  lia.
Qed.

Lemma floor_log2_comp (x y : Q) : 0 < x -> x == y -> floor_log2 x = floor_log2 y.
Proof.
  intros Hx E. symmetry. 
  destruct (floor_log2_spec x Hx) as [H1 H2].
  apply floor_log2_unique; rewrite <- E; assumption.
Qed.

Lemma round_half_even_comp (x y : Q) : x == y -> round_half_even x = round_half_even y.
Proof.
  intros E. unfold round_half_even.
  rewrite (Qfloor_comp x y E).
  assert (E' : x - inject_Z (Qfloor y) == y - inject_Z (Qfloor y)) by (rewrite E; reflexivity).
  rewrite (Qcompare_comp _ _ E' (1 # 2) (1 # 2) (Qeq_refl _)).
  reflexivity.
Qed.

Lemma round_positive_comp (x y : Q) :
  0 < x -> x == y -> round_positive x == round_positive y.
Proof.
  intros Hx E. unfold round_positive.
  rewrite (floor_log2_comp x y Hx E).
  set (e := Z.max (floor_log2 y) (-1022)).
  assert (E' : x / 2 ^ (e - 52) == y / 2 ^ (e - 52)) by (rewrite E; reflexivity).
  rewrite (round_half_even_comp _ _ E'). reflexivity.
Qed.

Lemma binary64_positive (x : Q) : 0 < x -> binary64 x = round_positive x.
Proof.
  intros Hx. unfold binary64.
  apply Qgt_alt in Hx. rewrite Hx. reflexivity.
Qed.

Lemma binary64_comp (x y : Q) : 0 < x -> x == y -> binary64 x == binary64 y.
Proof.
  intros Hx E.
  rewrite (binary64_positive x Hx).
  rewrite (binary64_positive y) by (rewrite <- E; assumption).
  apply round_positive_comp; assumption.
Qed.

Lemma round_half_even_close (y : Q) :
  y - (1 # 2) <= inject_Z (round_half_even y) /\
  inject_Z (round_half_even y) <= y + (1 # 2).
Proof.
  unfold round_half_even.
  pose proof (Qfloor_le y) as H1. pose proof (Qlt_floor y) as H2.
  rewrite inject_Z_plus in H2. change (inject_Z 1) with 1 in H2.
  destruct (Qcompare_spec (y - inject_Z (Qfloor y)) (1 # 2)) as [E | E | E].
  - destruct (Z.even (Qfloor y)).
    + lra.
    + rewrite inject_Z_plus. change (inject_Z 1) with 1. lra.
  - lra.
  - rewrite inject_Z_plus. change (inject_Z 1) with 1. lra.
Qed.

(** Rounding a number of the normal range moves it by at most a half unit
    in the last place, which is at most the 2^-53 part of the number. *)
Lemma round_positive_error (x : Q) :
  2 ^ (-1022) <= x ->
  x * (1 - (1 # 9007199254740992)) <= round_positive x /\
  round_positive x <= x * (1 + (1 # 9007199254740992)).
Proof.
  intros Hmin.
  assert (Hx : 0 < x) by (pose proof (two_power_pos (-1022)); lra).
  destruct (floor_log2_spec x Hx) as [H1 H2].
  assert (He : (-1022 <= floor_log2 x)%Z).
  { assert (-1022 < floor_log2 x + 1)%Z; [| lia].
    apply Qpower_lt_compat_l_inv with 2; [lra | reflexivity]. }
  unfold round_positive. rewrite Z.max_l by assumption.
  set (e := floor_log2 x) in *.
  pose proof (two_power_pos (e - 52)) as Hu.
  set (u := 2 ^ (e - 52)) in *.
  assert (Hue : u * 4503599627370496 == 2 ^ e).
  { unfold u. change 4503599627370496 with (2 ^ 52).
    rewrite <- Qpower_plus by discriminate.
    replace (e - 52 + 52)%Z with e by lia. reflexivity. }
  destruct (round_half_even_close (x / u)) as [H3 H4].
  set (m := inject_Z (round_half_even (x / u))) in *.
  assert (Hxu : x / u * u == x).
  { field. intros E. rewrite E in Hu. discriminate Hu. }
  assert (H5 : (x / u - (1 # 2)) * u <= m * u).
  { apply Qmult_le_compat_r; [assumption | lra]. }
  assert (H6 : m * u <= (x / u + (1 # 2)) * u).
  { apply Qmult_le_compat_r; [assumption | lra]. }
  assert (E5 : (x / u - (1 # 2)) * u == x - (1 # 2) * u) by (rewrite <- Hxu at 2; ring).
  assert (E6 : (x / u + (1 # 2)) * u == x + (1 # 2) * u) by (rewrite <- Hxu at 2; ring).
  rewrite E5 in H5. rewrite E6 in H6.
  split; lra.
Qed.

Lemma binary64_1 : binary64 1 == 1.
Proof. vm_compute. reflexivity. Qed.

Lemma binary64_100 : binary64 100 == 100.
Proof. vm_compute. reflexivity. Qed.


(** *** The quotients of line 154 *)

Lemma ratio_step (i j K : nat) :
  (i < j)%nat -> (j < K)%nat -> (Z.of_nat K <= 4294967296)%Z ->
  ratio i K + (1 # 4294967296) <= ratio j K.
Proof.
  intros Hij HjK HK. unfold ratio.
  assert (HD : 0 < inject_Z (Z.of_nat K)) by (apply inject_nat_pos; lia).
  assert (HD' : inject_Z (Z.of_nat K) <= 4294967296).
  { change 4294967296 with (inject_Z 4294967296). rewrite <- Zle_Qle.
    assumption. }
  assert (Hstep : inject_Z (Z.of_nat (i + 1)) + 1
                  <= inject_Z (Z.of_nat (j + 1))).
  { change 1 with (inject_Z 1). rewrite <- inject_Z_plus, <- Zle_Qle. lia. }
  apply Qle_shift_div_l; [assumption|].
  set (D := inject_Z (Z.of_nat K)) in *.
  assert (E : (inject_Z (Z.of_nat (i + 1)) / D + (1 # 4294967296)) * D
              == inject_Z (Z.of_nat (i + 1)) + (1 # 4294967296) * D).
  { field. intros E. rewrite E in HD. discriminate HD. }
  rewrite E. lra.
Qed.

Lemma ratio_last (K : nat) : (0 < K)%nat -> ratio (K - 1) K == 1.
Proof.
  intros HK. unfold ratio. replace (K - 1 + 1)%nat with K by lia.
  apply Qmult_inv_r. intros E.
  pose proof (inject_nat_pos K HK) as Hpos.
  rewrite E in Hpos. discriminate Hpos.
Qed.

Lemma ratio_range (i K : nat) :
  (i < K)%nat -> (Z.of_nat K <= 4294967296)%Z ->
  (1 # 4294967296) <= ratio i K /\ ratio i K <= 1.
Proof.
  intros HiK HK. unfold ratio.
  assert (HD : 0 < inject_Z (Z.of_nat K)) by (apply inject_nat_pos; lia).
  assert (HD' : inject_Z (Z.of_nat K) <= 4294967296).
  { change 4294967296 with (inject_Z 4294967296). rewrite <- Zle_Qle.
    assumption. }
  assert (H1 : 1 <= inject_Z (Z.of_nat (i + 1))).
  { change 1 with (inject_Z 1). rewrite <- Zle_Qle. lia. }
  assert (H2 : inject_Z (Z.of_nat (i + 1)) <= inject_Z (Z.of_nat K)).
  { rewrite <- Zle_Qle. lia. }
  split.
  - apply Qle_shift_div_l; [assumption | lra].
  - apply Qle_shift_div_r; [assumption | lra].
Qed.

Lemma tiny_below_progress : 2 ^ (-1022) <= (1 # 8589934592).
Proof. vm_compute. discriminate. Qed.

(** The value of line 154 is within two roundings of the exact one. *)
Lemma progress_at_bounds (i K : nat) :
  (i < K)%nat -> (Z.of_nat K <= 4294967296)%Z ->
  100 * ratio i K * (1 - (1 # 9007199254740992)) * (1 - (1 # 9007199254740992))
  <= progress_at i K
  /\ progress_at i K
     <= 100 * ratio i K * (1 + (1 # 9007199254740992))
        * (1 + (1 # 9007199254740992)).
Proof.
  intros HiK HK.
  destruct (ratio_range i K HiK HK) as [Hlo Hhi].
  pose proof tiny_below_progress as Htiny.
  unfold progress_at, Number_multiply, Number_divide. fold (ratio i K).
  set (t := ratio i K) in *.
  rewrite (binary64_positive t) by lra.
  destruct (round_positive_error t) as [Ha1 Ha2]; [lra|].
  set (a := round_positive t) in *.
  rewrite (binary64_positive (a * 100)) by lra.
  destruct (round_positive_error (a * 100)) as [Hv1 Hv2]; [lra|].
  set (v := round_positive (a * 100)) in *.
  split; lra.
Qed.

Lemma progress_at_last (K : nat) :
  (0 < K)%nat -> progress_at (K - 1) K == 100.
Proof.
  intros HK. unfold progress_at, Number_multiply, Number_divide.
  fold (ratio (K - 1) K).
  pose proof (ratio_last K HK) as Hone.
  assert (Ha : binary64 (ratio (K - 1) K) == 1).
  { rewrite (binary64_comp _ 1); [apply binary64_1 | | assumption].
    rewrite Hone. reflexivity. }
  rewrite (binary64_comp _ 100).
  - apply binary64_100.
  - rewrite Ha. reflexivity.
  - rewrite Ha. reflexivity.
Qed.

Lemma progress_at_lt (i j K : nat) :
  (i < j)%nat -> (j < K)%nat -> (Z.of_nat K <= 4294967296)%Z ->
  progress_at i K < progress_at j K.
Proof.
  intros Hij HjK HK.
  destruct (progress_at_bounds i K) as [_ Hi]; [lia | assumption |].
  destruct (progress_at_bounds j K) as [Hj _]; [lia | assumption |].
  pose proof (ratio_step i j K Hij HjK HK) as Hstep.
  destruct (ratio_range i K) as [Hlo _]; [lia | assumption |].
  destruct (ratio_range j K) as [_ Hhi]; [lia | assumption |].
  set (ti := ratio i K) in *. set (tj := ratio j K) in *.
  set (vi := progress_at i K) in *. set (vj := progress_at j K) in *.
  lra.
Qed.

Lemma progress_at_range (i K : nat) :
  (i < K)%nat -> (Z.of_nat K <= 4294967296)%Z ->
  0 <= progress_at i K /\ progress_at i K <= 100.
Proof.
  intros HiK HK.
  destruct (progress_at_bounds i K HiK HK) as [Hlo Hhi].
  destruct (ratio_range i K HiK HK) as [Hr1 Hr2].
  destruct (Nat.eq_dec (i + 1)%nat K) as [E | E].
  - replace i with (K - 1)%nat by lia.
    rewrite progress_at_last by lia. split; discriminate.
  - pose proof (ratio_step i (K - 1) K ltac:(lia) ltac:(lia) HK) as Hstep.
    rewrite ratio_last in Hstep by lia.
    set (t := ratio i K) in *. set (v := progress_at i K) in *.
    split; lra.
Qed.

End Binary64.

(** The model of the rounding and the Standard Library's specification of
    binary64 arithmetic deliver the same values of line 154 for the
    batches of up to 64 valid files. *)
Lemma progress_at_agrees_with_SpecFloat :
  forallb
    (fun K =>
       forallb
         (fun i =>
            Qeq_bool (progress_at i K)
              (SpecFloat_value (SpecFloat_progress i K)))
         (seq 0 K))
    (seq 1 64)
  = true.
Proof. vm_compute. reflexivity. Qed.

Lemma reported_sorted (b : Browser) (total : nat) (pending : list File.t) :
  (Z.of_nat total <= 4294967296)%Z ->
  forall i : nat,
    (i + length pending <= total)%nat ->
    StronglySorted Qlt (reported b total i pending).
Proof.
  intros Htotal.
  induction pending as [|file rest IH]; intros i Hlen; simpl.
  - constructor.
  - simpl in Hlen.
    destruct (encoded b i file); [|apply IH; lia].
    constructor; [apply IH; lia|].
    eapply List.Forall_impl; [|apply reported_positions].
    intros p (j & Hj & ->). apply progress_at_lt; [lia | lia | assumption].
Qed.

Lemma progress_during_reported (b : Browser) (files : list File.t)
  (w : World) :
  progress_during b files w
  = reported b (length (List.filter accepts files)) 0
      (List.filter accepts files).
Proof.
  unfold progress_during.
  destruct files as [|file rest].
  - simpl. now rewrite List.skipn_all.
  - rewrite handleFileUpload_run by discriminate.
    cbn [snd]. unfold uploaded; world_fields.
    rewrite List.skipn_app, List.skipn_all, Nat.sub_diag. cbn [app skipn tl].
    apply List.removelast_last.
Qed.
(* ===================================================================== *)
(** ** The upload: claims C1, C3, C4 and C10 *)

(** C1.  A batch of N files of which K pass [validateFile], every encode
    of a valid file succeeding: the upload appends K records to the
    gallery, one per valid file and in the order of the valid files in the
    batch, and nothing for the rejected files. *)
Theorem upload_appends_valid_files_in_order
  (b : Browser) (files : list File.t) (w : World) :
  (forall (i : nat) (file : File.t),
      nth_error (List.filter accepts files) i = Some file ->
      encoded b i file <> None) ->
  exists recs : list ImageData.t,
    images (snd (handleFileUpload b (Some files) w)) = images w ++ recs
    /\ length recs = length (List.filter accepts files)
    /\ (length recs <= length files)%nat
    /\ Forall2 built_from (List.filter accepts files) recs.
Proof.
  intros Hall.
  assert (Hbuilt :
    Forall2 built_from (List.filter accepts files)
      (produced b 0 (List.filter accepts files)))
    by (apply produced_built_from; exact Hall).
  exists (produced b 0 (List.filter accepts files)).
  pose proof (List.Forall2_length Hbuilt) as Hlen.
  repeat split.
  - destruct files as [|file rest].
    + simpl. now rewrite List.app_nil_r.
    + now rewrite handleFileUpload_run by discriminate.
  - now symmetry.
  - rewrite <- Hlen. apply List.filter_length_le.
  - exact Hbuilt.
Qed.

Lemma upload_appends_valid_files_in_order_witness :
  exists recs : list ImageData.t,
    images (snd (handleFileUpload reliable_browser (Some [a_png; b_exe])
                   (gallery_world [dog_image])))
    = [dog_image] ++ recs
    /\ length recs = 1%nat
    /\ (length recs <= 2)%nat
    /\ Forall2 built_from [a_png] recs.
Proof.
  apply (upload_appends_valid_files_in_order reliable_browser
           [a_png; b_exe] (gallery_world [dog_image])).
  intros i file _. vm_compute. discriminate.
Defined.

(** C3.  A batch in which every file fails validation: the [try] block
    fails as a whole with [No valid image files to upload], the handler
    catches it, the call completes normally and the gallery (and the
    storage area) are as before.  An empty batch returns at line 109,
    before the block; a batch with files logs the failure. *)
Theorem upload_without_valid_files
  (b : Browser) (files : list File.t) (w : World) :
  Forall (fun file => accepts file = false) files ->
  (forall w0 : World,
      fst (uploadBody b files w0)
      = Throw (Error (js "No valid image files to upload")))
  /\ fst (handleFileUpload b (Some files) w) = Normal tt
  /\ images (snd (handleFileUpload b (Some files) w)) = images w
  /\ localStorage (snd (handleFileUpload b (Some files) w)) = localStorage w
  /\ (files <> [] ->
      console (snd (handleFileUpload b (Some files) w))
      = console w ++ validation_log files
          ++ [(js "Upload error:",
               Caught (Error (js "No valid image files to upload")))]).
Proof.
  intros Hnone.
  assert (Hvalid : List.filter accepts files = []).
  { induction Hnone as [|file rest Hf _ IH]; simpl; [reflexivity|].
    now rewrite Hf. }
  split.
  { intros w0. unfold uploadBody, bind at 1.
    rewrite validateAll_run, Hvalid. reflexivity. }
  destruct files as [|file rest].
  - simpl. repeat split; try reflexivity. congruence.
  - rewrite handleFileUpload_run by discriminate.
    unfold uploaded, upload_log. rewrite Hvalid. simpl.
    repeat split; try reflexivity. apply List.app_nil_r.
Qed.

Lemma upload_without_valid_files_witness :
  (forall w0 : World,
      fst (uploadBody reliable_browser [big_jpeg] w0)
      = Throw (Error (js "No valid image files to upload")))
  /\ fst (handleFileUpload reliable_browser (Some [big_jpeg])
            (gallery_world [dog_image])) = Normal tt
  /\ images (snd (handleFileUpload reliable_browser (Some [big_jpeg])
                    (gallery_world [dog_image]))) = [dog_image]
  /\ localStorage (snd (handleFileUpload reliable_browser (Some [big_jpeg])
                          (gallery_world [dog_image]))) = ∅
  /\ ([big_jpeg] <> [] ->
      console (snd (handleFileUpload reliable_browser (Some [big_jpeg])
                      (gallery_world [dog_image])))
      = [] ++ validation_log [big_jpeg]
          ++ [(js "Upload error:",
               Caught (Error (js "No valid image files to upload")))]).
Proof.
  apply (upload_without_valid_files reliable_browser [big_jpeg]
           (gallery_world [dog_image])).
  repeat constructor.
Defined.

(** C4, as written, fails: with one valid file whose encode fails, no
    progress value is reported, though [1/1 * 100] is due. *)
Lemma progress_skips_failed_encode :
  ~ progress_as_written unreadable_browser [a_png] (gallery_world []).
Proof.
  unfold progress_as_written. rewrite progress_during_reported.
  vm_compute. intros H. inversion H.
Qed.

(** Nor does a batch of three files that are all read report the exact
    fractions: its first value is the binary64 number next to [100/3]. *)
Lemma progress_of_thirds_is_rounded :
  ~ progress_as_written reliable_browser [a_png; a_png; a_png]
      (gallery_world []).
Proof.
  unfold progress_as_written. rewrite progress_during_reported.
  intros H. vm_compute in H.
  inversion H as [|? ? ? ? Hhead _]. vm_compute in Hhead. discriminate.
Qed.

(** C4, amended.  With K valid files, a progress value is reported for
    the files whose encode succeeds and for no other: the values are, in
    the order of the batch, the numbers that line 154 computes at the
    positions of those files among the valid ones, [((i+1)/K) * 100] with
    the quotient and the product rounded to binary64.  For K up to 2^32,
    which the length of an array does not exceed, they are strictly
    increasing and lie in [0,100].  When every encode succeeds they are
    the rounded values of [1/K * 100, ..., K/K * 100], and the last one is
    100. *)
Theorem upload_progress_values
  (b : Browser) (files : list File.t) (w : World) :
  let valid := List.filter accepts files in
  let K := length valid in
  progress_during b files w
  = List.map (fun p => progress_at (fst p) K)
      (List.filter (read_ok b) (positions valid))
  /\ ((Z.of_nat K <= 4294967296)%Z ->
      StronglySorted Qlt (progress_during b files w)
      /\ Forall (fun p => (0 <= p)%Q /\ (p <= 100)%Q)
           (progress_during b files w))
  /\ ((forall (i : nat) (file : File.t),
          nth_error valid i = Some file -> encoded b i file <> None) ->
      progress_during b files w = rounded_fractions_of K
      /\ (K <> 0%nat -> (List.last (progress_during b files w) 0 == 100)%Q)).
Proof.
  intros valid K. rewrite progress_during_reported. fold valid K.
  split; [|split].
  - apply reported_filter_positions.
  - intros HK. split.
    + apply reported_sorted; [assumption | simpl; lia].
    + eapply List.Forall_impl; [|apply reported_positions].
      intros p (j & Hj & ->). simpl in Hj. fold K in Hj.
      apply progress_at_range; [lia | assumption].
  - intros Hall.
    assert (Heq : reported b K 0 valid = rounded_fractions_of K).
    { rewrite rounded_fractions_of_progress_at. now apply reported_all. }
    split; [exact Heq |].
    intros HK. rewrite Heq, rounded_fractions_of_progress_at.
    destruct K as [|k]; [congruence|].
    rewrite List.seq_S, List.map_app. cbn [List.map Nat.add].
    rewrite List.last_last.
    replace k with (S k - 1)%nat at 1 by lia.
    apply progress_at_last. lia.
Qed.

Lemma upload_progress_values_witness :
  (Z.of_nat (length (List.filter accepts [a_png; b_exe; a_png]))
   <= 4294967296)%Z
  /\ StronglySorted Qlt
       (progress_during reliable_browser [a_png; b_exe; a_png]
          (gallery_world []))
  /\ Forall (fun p => (0 <= p)%Q /\ (p <= 100)%Q)
       (progress_during reliable_browser [a_png; b_exe; a_png]
          (gallery_world []))
  /\ progress_during reliable_browser [a_png; b_exe; a_png]
       (gallery_world [])
     = rounded_fractions_of
         (length (List.filter accepts [a_png; b_exe; a_png])).
Proof.
  assert (HK : (Z.of_nat (length (List.filter accepts [a_png; b_exe; a_png]))
                <= 4294967296)%Z) by (vm_compute; discriminate).
  destruct (upload_progress_values reliable_browser [a_png; b_exe; a_png]
              (gallery_world [])) as (_ & Hsorted & Hall).
  destruct (Hsorted HK) as [Hs Hr].
  destruct Hall as [Heq _].
  { intros i file _. vm_compute. discriminate. }
  exact (conj HK (conj Hs (conj Hr Heq))).
Defined.

(** C10.  Called with [null] or with an empty list, the upload returns at
    once: the gallery, the progress value, the uploading flag and every
    other part of the state are as before. *)
Theorem upload_of_nothing_changes_nothing (b : Browser) (w : World) :
  handleFileUpload b None w = (Normal tt, w)
  /\ handleFileUpload b (Some []) w = (Normal tt, w).
Proof. split; reflexivity. Qed.
(* ===================================================================== *)
(** ** The validator: claim C2 *)

(** C2, as written, fails: a file of 11 MiB whose type is not accepted is
    rejected for its type, not for its size. *)
Lemma oversized_file_of_wrong_type_is_invalid_type :
  ~ validate_contract_as_written big_exe.
Proof.
  intros (_ & _ & Hsize).
  assert (Hbig : maxSize < File.size big_exe) by (vm_compute; reflexivity).
  specialize (Hsize Hbig). unfold rejects_with in Hsize.
  vm_compute in Hsize. discriminate.
Qed.

(** C2, amended.  [validateFile] accepts a file exactly when its type is
    one of the five accepted strings and its size is at most 10,485,760
    bytes; a type outside the set is rejected as invalid-type with the
    observed type; an accepted type with a size above 10,485,760 bytes is
    rejected as too-large with the size in MB to two decimals.  The type
    is checked first. *)
Theorem validateFile_contract (file : File.t) :
  (validateFile file = Normal true <->
     In (File.type file) validTypes /\ File.size file <= maxSize)
  /\ (~ In (File.type file) validTypes ->
      rejects_with file (invalid_type (File.type file)))
  /\ (In (File.type file) validTypes -> maxSize < File.size file ->
      rejects_with file (too_large (megabytes_toFixed2 (File.size file))))
  /\ maxSize = 10485760.
Proof.
  destruct (validateFile_cases file)
    as [(Ht & Hs & H) | [(Ht & H) | (Ht & Hs & H)]]; unfold rejects_with in *;
    rewrite H; (split; [|split; [|split]]); try reflexivity;
    try (intros; tauto); try (intros; lia).
  - split; [discriminate | tauto].
  - split; [discriminate | intros (_ & Hle); lia].
Qed.

Lemma validateFile_contract_witness :
  validateFile a_png = Normal true
  /\ validateFile (File.mk (js "edge.png") 10485760 (js "image/png"))
     = Normal true
  /\ rejects_with b_exe (invalid_type (js "application/exe"))
  /\ rejects_with (File.mk (js "A.PNG") 1 (js "IMAGE/PNG"))
       (invalid_type (js "IMAGE/PNG"))
  /\ rejects_with big_jpeg (too_large (js "11.00"))
  /\ rejects_with (File.mk (js "over.png") 10485761 (js "image/png"))
       (too_large (js "10.00")).
Proof.
  split; [|split; [|split; [|split; [|split]]]].
  - apply (validateFile_contract a_png). vm_compute. split; [tauto | discriminate].
  - apply (validateFile_contract
             (File.mk (js "edge.png") 10485760 (js "image/png"))).
    vm_compute. split; [tauto | discriminate].
  - destruct (validateFile_contract b_exe) as (_ & H & _). apply H.
    vm_compute. intuition discriminate.
  - destruct (validateFile_contract (File.mk (js "A.PNG") 1 (js "IMAGE/PNG")))
      as (_ & H & _).
    apply H. vm_compute. intuition discriminate.
  - destruct (validateFile_contract big_jpeg) as (_ & _ & H & _).
    apply H; vm_compute; tauto.
  - destruct (validateFile_contract
                (File.mk (js "over.png") 10485761 (js "image/png")))
      as (_ & _ & H & _).
    apply H; vm_compute; tauto.
Defined.

(* ===================================================================== *)
(** ** Deleting: claim C7 *)

Lemma filter_keeps_all {A : Type} (keep : A -> bool) (l : list A) :
  Forall (fun x => keep x = true) l -> List.filter keep l = l.
Proof.
  induction 1 as [|x l Hx _ IH]; simpl; [reflexivity|].
  now rewrite Hx, IH.
Qed.

Lemma filter_drops_all {A : Type} (keep : A -> bool) (l : list A) :
  Forall (fun x => keep x = false) l -> List.filter keep l = [].
Proof.
  induction 1 as [|x l Hx _ IH]; simpl; [reflexivity|].
  now rewrite Hx.
Qed.

Lemma other_id_kept (imageId : jsstring) (l : list ImageData.t) :
  Forall (fun img => ImageData.id img <> imageId) l ->
  Forall
    (fun img => negb (jsstring_eqb (ImageData.id img) imageId) = true) l.
Proof.
  apply List.Forall_impl. intros img Hne.
  destruct (jsstring_eqb (ImageData.id img) imageId) eqn:Heq;
    [|reflexivity].
  apply jsstring_eqb_eq in Heq. contradiction.
Qed.

(** C7.  [deleteImage(id)] removes the record whose id is [id] and leaves
    every other record, and their order, as they were; when no record has
    that id the gallery is unchanged.  (Were several records to share the
    id, all of them would go: what stays is exactly the records with
    another id.) *)
Theorem deleteImage_removes_the_record (imageId : jsstring) (w : World) :
  fst (deleteImage imageId w) = Normal tt
  /\ (forall (before after : list ImageData.t) (img : ImageData.t),
         images w = before ++ img :: after ->
         ImageData.id img = imageId ->
         Forall (fun x => ImageData.id x <> imageId) (before ++ after) ->
         images (snd (deleteImage imageId w)) = before ++ after)
  /\ (Forall (fun x => ImageData.id x <> imageId) (images w) ->
      images (snd (deleteImage imageId w)) = images w)
  /\ (forall img : ImageData.t,
         In img (images (snd (deleteImage imageId w))) <->
         In img (images w) /\ ImageData.id img <> imageId).
Proof.
  split; [reflexivity|]. unfold deleteImage, setImages; simpl.
  split; [|split].
  - intros before after img Hw Hid Hothers. rewrite Hw.
    apply List.Forall_app in Hothers as [Hb Ha].
    rewrite List.filter_app. simpl.
    rewrite Hid, jsstring_eqb_refl. simpl.
    now rewrite !filter_keeps_all by now apply other_id_kept.
  - intros Hothers. apply filter_keeps_all. now apply other_id_kept.
  - intros img. rewrite List.filter_In, negb_true_iff.
    split; intros (Hin & Hid); split; try assumption.
    + intros Heq. apply jsstring_eqb_eq in Heq. congruence.
    + destruct (jsstring_eqb (ImageData.id img) imageId) eqn:Heq;
        [|reflexivity].
      apply jsstring_eqb_eq in Heq. contradiction.
Qed.

Lemma deleteImage_removes_the_record_witness :
  images (snd (deleteImage (ImageData.id dog_image)
                 (gallery_world [cat_image; dog_image; exe_image])))
  = [cat_image] ++ [exe_image]
  /\ images (snd (deleteImage (js "absent")
                    (gallery_world [cat_image; dog_image])))
     = [cat_image; dog_image].
Proof.
  split.
  - destruct (deleteImage_removes_the_record (ImageData.id dog_image)
                (gallery_world [cat_image; dog_image; exe_image]))
      as (_ & H & _).
    apply (H [cat_image] [exe_image] dog_image); try reflexivity.
    repeat constructor; vm_compute; discriminate.
  - destruct (deleteImage_removes_the_record (js "absent")
                (gallery_world [cat_image; dog_image]))
      as (_ & _ & H & _).
    apply H. repeat constructor; vm_compute; discriminate.
Defined.

(* ===================================================================== *)
(** ** Searching: claim C8 *)

Section SearchProperties.

Variable toLowerCase : jsstring -> jsstring.

(** On a string of ASCII code units, [toLowerCase] maps [A]-[Z] to
    [a]-[z] and keeps every other code unit. *)
Hypothesis toLowerCase_ascii :
  forall s : jsstring,
    Forall is_ascii s -> toLowerCase s = List.map ascii_lower s.

Lemma includes_ignoring_case (name query : jsstring) :
  String_includes (toLowerCase name) (toLowerCase query) = true <->
  contains_ignoring_case toLowerCase name query.
Proof. apply String_includes_substring. Qed.

(** C8.  The search filter keeps, in the order of the gallery, exactly
    the records whose [name] contains the query once both are in lower
    case; the empty query keeps the whole gallery, a query that no name
    contains keeps nothing, and [cat] matches [CAT_photo]. *)
Theorem filteredImages_is_the_matching_subsequence
  (imgs : list ImageData.t) (query : jsstring) :
  (exists keep : ImageData.t -> bool,
      (forall img : ImageData.t,
          keep img = true <->
          contains_ignoring_case toLowerCase (ImageData.name img) query)
      /\ filteredImages toLowerCase imgs query = List.filter keep imgs)
  /\ filteredImages toLowerCase imgs [] = imgs
  /\ (Forall
        (fun img =>
           ~ contains_ignoring_case toLowerCase (ImageData.name img) query)
        imgs ->
      filteredImages toLowerCase imgs query = [])
  /\ (forall img : ImageData.t,
         In img imgs ->
         ImageData.name img = js "CAT_photo" ->
         In img (filteredImages toLowerCase imgs (js "cat"))).
Proof.
  split; [|split; [|split]].
  - exists (fun image =>
              String_includes (toLowerCase (ImageData.name image))
                (toLowerCase query)).
    split; [|reflexivity].
    intros img. apply includes_ignoring_case.
  - unfold filteredImages. apply filter_keeps_all.
    rewrite (toLowerCase_ascii []) by constructor.
    apply List.Forall_forall. intros img _.
    now destruct (toLowerCase (ImageData.name img)).
  - intros Hnone. unfold filteredImages. apply filter_drops_all.
    revert Hnone. apply List.Forall_impl. intros img Hno.
    destruct (String_includes (toLowerCase (ImageData.name img))
                (toLowerCase query)) eqn:Hinc; [|reflexivity].
    apply includes_ignoring_case in Hinc. contradiction.
  - intros img Hin Hname. unfold filteredImages.
    apply List.filter_In. split; [assumption|].
    rewrite Hname, !toLowerCase_ascii
      by (repeat constructor; vm_compute; reflexivity).
    vm_compute. reflexivity.
Qed.

End SearchProperties.

Lemma filteredImages_is_the_matching_subsequence_witness :
  filteredImages (List.map ascii_lower) [dog_image; cat_image] [] 
  = [dog_image; cat_image]
  /\ In cat_image
       (filteredImages (List.map ascii_lower) [dog_image; cat_image]
          (js "cat")).
Proof.
  split.
  - apply (filteredImages_is_the_matching_subsequence
             (List.map ascii_lower) (fun s _ => eq_refl)
             [dog_image; cat_image] []).
  - destruct (filteredImages_is_the_matching_subsequence
                (List.map ascii_lower) (fun s _ => eq_refl)
                [dog_image; cat_image] (js "cat")) as (_ & _ & _ & H).
    apply H; [simpl; tauto | reflexivity].
Defined.
(* ===================================================================== *)
(** ** JSON: reading back what [stringify] writes *)

Lemma hex_value_hex_unit (d : N) :
  d < 16 -> JSON.hex_value (JSON.hex_unit d) = Some d.
Proof.
  intros Hd.
  assert (H : d = 0 \/ d = 1 \/ d = 2 \/ d = 3 \/ d = 4 \/ d = 5 \/ d = 6
              \/ d = 7 \/ d = 8 \/ d = 9 \/ d = 10 \/ d = 11 \/ d = 12
              \/ d = 13 \/ d = 14 \/ d = 15) by lia.
  repeat (destruct H as [-> | H]; [reflexivity|]).
  now subst.
Qed.

Lemma read_chars_unicode_escape (c : N) (rest : jsstring) :
  c < 65536 ->
  JSON.read_chars (JSON.unicode_escape c ++ rest)
  = JSON.cons_to c (JSON.read_chars rest).
Proof.
  intros Hc. unfold JSON.unicode_escape.
  cbn [app JSON.read_chars]. cbn [N.eqb Pos.eqb].
  unfold JSON.hex4.
  rewrite !hex_value_hex_unit by (apply N.mod_lt; discriminate).
  replace (4096 * ((c / 4096) mod 16) + 256 * ((c / 256) mod 16)
           + 16 * ((c / 16) mod 16) + c mod 16) with c; [reflexivity|].
  pose proof (N.div_mod c 16 ltac:(discriminate)) as H1.
  pose proof (N.div_mod (c / 16) 16 ltac:(discriminate)) as H2.
  pose proof (N.div_mod (c / 256) 16 ltac:(discriminate)) as H3.
  replace (c / 16 / 16) with (c / 256) in H2
    by (now rewrite N.Div0.div_div).
  replace (c / 256 / 16) with (c / 4096) in H3
    by (now rewrite N.Div0.div_div).
  assert (H4 : c / 4096 < 16)
    by (apply N.Div0.div_lt_upper_bound; exact Hc).
  rewrite (N.mod_small (c / 4096) 16) in * by exact H4.
  lia.
Qed.

Lemma read_chars_plain (c : N) (rest : jsstring) :
  c <> 34 -> c <> 92 -> 32 <= c ->
  JSON.read_chars (c :: rest) = JSON.cons_to c (JSON.read_chars rest).
Proof.
  intros H34 H92 H32. cbn [JSON.read_chars].
  apply N.eqb_neq in H34, H92. rewrite H34, H92.
  apply N.ltb_ge in H32. now rewrite H32.
Qed.

Lemma read_chars_write_chars_bounded (n : nat) :
  forall s k : jsstring,
    (length s <= n)%nat ->
    JSON.read_chars (JSON.write_chars s (34 :: k)) = Some (s, k).
Proof.
  induction n as [|n IH]; intros [|c rest] k Hlen; simpl in Hlen;
    try lia; try reflexivity.
  assert (Hrest : JSON.read_chars (JSON.write_chars rest (34 :: k))
                  = Some (rest, k)) by (apply IH; lia).
  cbn [JSON.write_chars].
  destruct (c =? 8) eqn:E8.
  { apply N.eqb_eq in E8; subst c. cbn. now rewrite Hrest. }
  destruct (c =? 9) eqn:E9.
  { apply N.eqb_eq in E9; subst c. cbn. now rewrite Hrest. }
  destruct (c =? 10) eqn:E10.
  { apply N.eqb_eq in E10; subst c. cbn. now rewrite Hrest. }
  destruct (c =? 12) eqn:E12.
  { apply N.eqb_eq in E12; subst c. cbn. now rewrite Hrest. }
  destruct (c =? 13) eqn:E13.
  { apply N.eqb_eq in E13; subst c. cbn. now rewrite Hrest. }
  destruct (c =? 34) eqn:E34.
  { apply N.eqb_eq in E34; subst c. cbn. now rewrite Hrest. }
  destruct (c =? 92) eqn:E92.
  { apply N.eqb_eq in E92; subst c. cbn. now rewrite Hrest. }
  apply N.eqb_neq in E34, E92.
  destruct (c <? 32) eqn:E32.
  { apply N.ltb_lt in E32.
    rewrite read_chars_unicode_escape by lia. now rewrite Hrest. }
  apply N.ltb_ge in E32.
  destruct (JSON.is_lead c) eqn:Elead.
  { unfold JSON.is_lead in Elead.
    apply andb_true_iff in Elead as [Hlo Hhi].
    apply N.leb_le in Hlo, Hhi.
    destruct rest as [|d rest'].
    - rewrite read_chars_unicode_escape by lia. now rewrite Hrest.
    - destruct (JSON.is_trail d) eqn:Etrail.
      + unfold JSON.is_trail in Etrail.
        apply andb_true_iff in Etrail as [Hlo' Hhi'].
        apply N.leb_le in Hlo', Hhi'.
        rewrite !read_chars_plain by lia.
        rewrite IH by (simpl in Hlen; lia). reflexivity.
      + rewrite read_chars_unicode_escape by lia. now rewrite Hrest. }
  destruct (JSON.is_trail c) eqn:Etrail.
  { unfold JSON.is_trail in Etrail.
    apply andb_true_iff in Etrail as [Hlo Hhi].
    apply N.leb_le in Hlo, Hhi.
    rewrite read_chars_unicode_escape by lia. now rewrite Hrest. }
  rewrite read_chars_plain by assumption. now rewrite Hrest.
Qed.

Lemma read_chars_write_chars (s k : jsstring) :
  JSON.read_chars (JSON.write_chars s (34 :: k)) = Some (s, k).
Proof. now apply (read_chars_write_chars_bounded (length s)). Qed.

Lemma length_write_chars_bounded (n : nat) :
  forall s k : jsstring,
    (length s <= n)%nat -> (length k <= length (JSON.write_chars s k))%nat.
Proof.
  induction n as [|n IH]; intros [|c rest] k Hlen; simpl in Hlen;
    try lia; try (simpl; lia).
  assert (Hrest : (length k <= length (JSON.write_chars rest k))%nat)
    by (apply IH; lia).
  cbn [JSON.write_chars]. unfold JSON.unicode_escape.
  repeat match goal with
         | |- context [if ?t then _ else _] => destruct t
         end; cbn [length app]; try lia.
  destruct rest as [|d rest']; cbn [length app]; try lia.
  destruct (JSON.is_trail d); cbn [length app]; try lia.
  specialize (IH rest' k). simpl in Hlen. lia.
Qed.

Lemma length_write_string (s k : jsstring) (m : nat) :
  (m <= length k)%nat -> (m <= length (JSON.write_string s k))%nat.
Proof.
  intros H. unfold JSON.write_string. cbn [length].
  pose proof (length_write_chars_bounded (length s) s (34 :: k) (le_n _)).
  simpl in *. lia.
Qed.

Lemma length_write_number (n : N) (k : jsstring) (m : nat) :
  (m <= length k)%nat -> (m <= length (JSON.write_number n k))%nat.
Proof.
  intros H. unfold JSON.write_number. rewrite List.length_app. lia.
Qed.

Lemma length_write_image (img : ImageData.t) (k : jsstring) :
  (10 + length k <= length (JSON.write_image img k))%nat.
Proof.
  unfold JSON.write_image, JSON.write_key.
  repeat first
    [ apply length_write_string
    | apply length_write_number
    | cbn [length]; apply le_n_S
    | cbn [length]; apply Nat.le_le_succ_r ].
  apply le_n.
Qed.
(** *** Numbers *)

Lemma read_digits_units (d : Decimal.uint) (k : jsstring) :
  (forall (c : N) (k' : jsstring), k = c :: k' -> JSON.digit_of c = None) ->
  JSON.read_digits (uint_units d ++ k) = (d, k).
Proof.
  intros Hk. induction d; cbn [uint_units app JSON.read_digits];
    try (change (JSON.digit_of (digit_unit 0)) with (Some Decimal.D0));
    try (change (JSON.digit_of (digit_unit 1)) with (Some Decimal.D1));
    try (change (JSON.digit_of (digit_unit 2)) with (Some Decimal.D2));
    try (change (JSON.digit_of (digit_unit 3)) with (Some Decimal.D3));
    try (change (JSON.digit_of (digit_unit 4)) with (Some Decimal.D4));
    try (change (JSON.digit_of (digit_unit 5)) with (Some Decimal.D5));
    try (change (JSON.digit_of (digit_unit 6)) with (Some Decimal.D6));
    try (change (JSON.digit_of (digit_unit 7)) with (Some Decimal.D7));
    try (change (JSON.digit_of (digit_unit 8)) with (Some Decimal.D8));
    try (change (JSON.digit_of (digit_unit 9)) with (Some Decimal.D9));
    try (rewrite IHd; reflexivity).
  destruct k as [|c k']; [reflexivity|].
  cbn [JSON.read_digits]. now rewrite (Hk c k' eq_refl).
Qed.

Lemma units_head (d : Decimal.uint) (k : jsstring) :
  d <> Decimal.Nil ->
  exists (c : N) (r : jsstring),
    uint_units d ++ k = c :: r /\ 48 <= c <= 57.
Proof.
  intros Hd. destruct d; [congruence| ..]; cbn [uint_units app];
    eexists; eexists; (split; [reflexivity | unfold digit_unit; lia]).
Qed.

Lemma nzhead_no_leading_zero (d d' : Decimal.uint) :
  Decimal.nzhead d <> Decimal.D0 d'.
Proof. induction d; simpl; try discriminate; assumption. Qed.

Lemma to_uint_normal (n : N) : Decimal.unorm (N.to_uint n) = N.to_uint n.
Proof.
  rewrite <- DecimalN.Unsigned.to_of. now rewrite DecimalN.Unsigned.of_to.
Qed.

Lemma read_int_units (n : N) (k : jsstring) :
  (forall (c : N) (k' : jsstring), k = c :: k' -> JSON.digit_of c = None) ->
  JSON.read_int (Number_toString n ++ k) = Some (N.to_uint n, k).
Proof.
  intros Hk. unfold JSON.read_int, Number_toString.
  rewrite read_digits_units by exact Hk.
  pose proof (to_uint_normal n) as Hnorm.
  destruct (N.to_uint n) as [|d|d|d|d|d|d|d|d|d|d]; try reflexivity.
  - discriminate.
  - destruct d; try reflexivity;
      unfold Decimal.unorm in Hnorm;
      match type of Hnorm with
      | match ?h with _ => _ end = _ =>
          destruct h eqn:Hh; try discriminate;
          exfalso; injection Hnorm as Hnorm; subst;
          eapply nzhead_no_leading_zero; exact Hh
      end.
Qed.

Lemma to_uint_nonnil (n : N) : N.to_uint n <> Decimal.Nil.
Proof.
  pose proof (to_uint_normal n) as Hnorm. intros H. rewrite H in Hnorm.
  discriminate.
Qed.

Lemma read_number_toString (n : N) (k : jsstring) :
  JSON.read_number (Number_toString n ++ 44 :: k)
  = Some (Decimal.Decimal (Decimal.Pos (N.to_uint n)) Decimal.Nil, 44 :: k).
Proof.
  unfold JSON.read_number.
  destruct (units_head (N.to_uint n) (44 :: k) (to_uint_nonnil n))
    as (c & r & Heq & Hc).
  assert (Hsign : JSON.read_sign false (Number_toString n ++ 44 :: k)
                  = (false, Number_toString n ++ 44 :: k)).
  { unfold Number_toString. rewrite Heq. unfold JSON.read_sign.
    replace (c =? 45) with false by (symmetry; apply N.eqb_neq; lia).
    reflexivity. }
  rewrite Hsign, read_int_units.
  - reflexivity.
  - intros c' k' H. injection H as <- _. reflexivity.
Qed.

(** *** Values *)

Lemma read_value_string (fuel : nat) (s k : jsstring) :
  JSON.read_value (S fuel) (JSON.write_string s k) = Some (JSON.String s, k).
Proof.
  unfold JSON.write_string. cbn [JSON.read_value]. cbn [N.eqb Pos.eqb].
  now rewrite read_chars_write_chars.
Qed.

Lemma read_value_number (fuel : nat) (n : N) (k : jsstring) :
  JSON.read_value (S fuel) (JSON.write_number n (44 :: k))
  = Some (JSON.Number
            (Decimal.Decimal (Decimal.Pos (N.to_uint n)) Decimal.Nil),
          44 :: k).
Proof.
  unfold JSON.write_number.
  pose proof (read_number_toString n k) as Hnum.
  destruct (units_head (N.to_uint n) (44 :: k) (to_uint_nonnil n))
    as (c & r & Heq & Hc).
  unfold Number_toString in *. rewrite Heq in *.
  cbn [JSON.read_value].
  replace (c =? 34) with false by (symmetry; apply N.eqb_neq; lia).
  replace (c =? 91) with false by (symmetry; apply N.eqb_neq; lia).
  replace (c =? 123) with false by (symmetry; apply N.eqb_neq; lia).
  replace (c =? 110) with false by (symmetry; apply N.eqb_neq; lia).
  replace (c =? 116) with false by (symmetry; apply N.eqb_neq; lia).
  replace (c =? 102) with false by (symmetry; apply N.eqb_neq; lia).
  now rewrite Hnum.
Qed.

Lemma skip_ws_write_key (key : string) (k : jsstring) :
  JSON.skip_ws (JSON.write_key key k) = JSON.write_key key k.
Proof. reflexivity. Qed.

Lemma skip_ws_write_string (s k : jsstring) :
  JSON.skip_ws (JSON.write_string s k) = JSON.write_string s k.
Proof. reflexivity. Qed.

Lemma skip_ws_write_number (n : N) (k : jsstring) :
  JSON.skip_ws (JSON.write_number n k) = JSON.write_number n k.
Proof.
  unfold JSON.write_number, Number_toString.
  destruct (units_head (N.to_uint n) k (to_uint_nonnil n))
    as (c & r & Heq & Hc).
  rewrite Heq. cbn [JSON.skip_ws]. unfold JSON.is_ws.
  replace (c =? 32) with false by (symmetry; apply N.eqb_neq; lia).
  replace (c =? 9) with false by (symmetry; apply N.eqb_neq; lia).
  replace (c =? 10) with false by (symmetry; apply N.eqb_neq; lia).
  replace (c =? 13) with false by (symmetry; apply N.eqb_neq; lia).
  reflexivity.
Qed.

(** A member whose value [text] reads as [v], followed by a comma. *)
Lemma read_members_more (fuel : nat) (key : string) (text : jsstring -> jsstring)
  (v : JSON.value) (rest : jsstring) :
  JSON.skip_ws (text (44 :: rest)) = text (44 :: rest) ->
  JSON.read_value (S fuel) (text (44 :: rest)) = Some (v, 44 :: rest) ->
  JSON.read_members (S (S fuel)) (JSON.write_key key (text (44 :: rest)))
  = match JSON.read_members (S fuel) (JSON.skip_ws rest) with
    | Some (ms, rest') => Some ((js key, v) :: ms, rest')
    | None => None
    end.
Proof.
  intros Hws Hval. unfold JSON.write_key, JSON.write_string.
  cbn [JSON.read_members]. rewrite read_chars_write_chars.
  change (JSON.skip_ws (58 :: text (44 :: rest)))
    with (58 :: text (44 :: rest)).
  cbv iota. rewrite Hws, Hval.
  change (JSON.skip_ws (44 :: rest)) with (44 :: rest).
  cbv iota. cbn [N.eqb Pos.eqb]. reflexivity.
Qed.

(** The last member, followed by the closing brace. *)
Lemma read_members_last (fuel : nat) (key : string) (s rest : jsstring) :
  JSON.read_members (S (S fuel))
    (JSON.write_key key (JSON.write_string s (125 :: rest)))
  = Some ([(js key, JSON.String s)], rest).
Proof.
  unfold JSON.write_key. unfold JSON.write_string at 1.
  cbn [JSON.read_members]. rewrite read_chars_write_chars.
  change (JSON.skip_ws (58 :: JSON.write_string s (125 :: rest)))
    with (58 :: JSON.write_string s (125 :: rest)).
  cbv iota. rewrite skip_ws_write_string, read_value_string.
  reflexivity.
Qed.

Lemma read_value_image (fuel : nat) (img : ImageData.t) (k : jsstring) :
  JSON.read_value (9 + fuel) (JSON.write_image img k)
  = Some (image_value img, k).
Proof.
  unfold JSON.write_image. cbn [Nat.add].
  match goal with
  | |- JSON.read_value (S ?f) (123 :: ?t) = _ =>
      change (JSON.read_value (S f) (123 :: t))
        with (match JSON.read_members f t with
              | Some (ms, rest'') => Some (JSON.Object ms, rest'')
              | None => None
              end)
  end.
  rewrite (read_members_more _ "id" (JSON.write_string (ImageData.id img))
             (JSON.String (ImageData.id img)))
    by first [apply skip_ws_write_string | apply read_value_string].
  rewrite skip_ws_write_key.
  rewrite (read_members_more _ "name"
             (JSON.write_string (ImageData.name img))
             (JSON.String (ImageData.name img)))
    by first [apply skip_ws_write_string | apply read_value_string].
  rewrite skip_ws_write_key.
  rewrite (read_members_more _ "originalName"
             (JSON.write_string (ImageData.originalName img))
             (JSON.String (ImageData.originalName img)))
    by first [apply skip_ws_write_string | apply read_value_string].
  rewrite skip_ws_write_key.
  rewrite (read_members_more _ "src" (JSON.write_string (ImageData.src img))
             (JSON.String (ImageData.src img)))
    by first [apply skip_ws_write_string | apply read_value_string].
  rewrite skip_ws_write_key.
  rewrite (read_members_more _ "size"
             (JSON.write_number (ImageData.size img))
             (JSON.Number
                (Decimal.Decimal
                   (Decimal.Pos (N.to_uint (ImageData.size img)))
                   Decimal.Nil)))
    by first [apply skip_ws_write_number | apply read_value_number].
  rewrite skip_ws_write_key.
  rewrite (read_members_more _ "type"
             (JSON.write_string (ImageData.type img))
             (JSON.String (ImageData.type img)))
    by first [apply skip_ws_write_string | apply read_value_string].
  rewrite skip_ws_write_key.
  rewrite read_members_last.
  reflexivity.
Qed.
(** *** Arrays of image records *)

Lemma skip_ws_write_image (img : ImageData.t) (k : jsstring) :
  JSON.skip_ws (JSON.write_image img k) = JSON.write_image img k.
Proof. reflexivity. Qed.

Lemma read_elements_S (fuel : nat) (s : jsstring) :
  JSON.read_elements (S fuel) s
  = match JSON.read_value fuel s with
    | None => None
    | Some (v, rest) =>
        match JSON.skip_ws rest with
        | c :: rest' =>
            if c =? 93 then Some ([v], rest')
            else if c =? 44 then
              match JSON.read_elements fuel (JSON.skip_ws rest') with
              | Some (vs, rest'') => Some (v :: vs, rest'')
              | None => None
              end
            else None
        | [] => None
        end
    end.
Proof. reflexivity. Qed.

Lemma read_elements_images (imgs : list ImageData.t) :
  forall (img : ImageData.t) (fuel : nat) (k : jsstring),
    JSON.read_elements (10 + length imgs + fuel)
      (JSON.write_image img (JSON.write_images_tail imgs k))
    = Some (image_value img :: List.map image_value imgs, k).
Proof.
  induction imgs as [|img' imgs IH]; intros img fuel k.
  - replace (10 + length (@nil ImageData.t) + fuel)%nat
      with (S (9 + fuel)) by reflexivity.
    rewrite read_elements_S, read_value_image. reflexivity.
  - replace (10 + length (img' :: imgs) + fuel)%nat
      with (S (9 + (1 + length imgs + fuel)))%nat by (simpl; lia).
    rewrite read_elements_S, read_value_image.
    replace (9 + (1 + length imgs + fuel))%nat
      with (10 + length imgs + fuel)%nat by lia.
    specialize (IH img' fuel k).
    replace (JSON.write_images_tail (img' :: imgs) k)
      with (44 :: JSON.write_image img' (JSON.write_images_tail imgs k))
      by reflexivity.
    replace (JSON.skip_ws
               (44 :: JSON.write_image img' (JSON.write_images_tail imgs k)))
      with (44 :: JSON.write_image img' (JSON.write_images_tail imgs k))
      by reflexivity.
    replace (44 =? 93) with false by reflexivity.
    replace (44 =? 44) with true by reflexivity.
    rewrite skip_ws_write_image, IH. reflexivity.
Qed.

Lemma length_write_images_tail (imgs : list ImageData.t) (k : jsstring) :
  (length imgs <= length (JSON.write_images_tail imgs k))%nat.
Proof.
  induction imgs as [|img imgs IH]; cbn [length JSON.write_images_tail];
    [lia|].
  pose proof (length_write_image img (JSON.write_images_tail imgs k)).
  lia.
Qed.

Lemma read_value_array (fuel : nat) (img : ImageData.t) (t : jsstring) :
  JSON.read_value (S fuel) (91 :: JSON.write_image img t)
  = match JSON.read_elements fuel (JSON.write_image img t) with
    | Some (vs, rest) => Some (JSON.Array vs, rest)
    | None => None
    end.
Proof. reflexivity. Qed.

Lemma parse_stringify (imgs : list ImageData.t) :
  JSON.parse (JSON.stringify imgs)
  = Normal (JSON.Array (List.map image_value imgs)).
Proof.
  destruct imgs as [|img imgs]; [reflexivity|].
  unfold JSON.parse, JSON.stringify, JSON.write_images.
  assert (Hlen : (10 + length imgs
                  <= length (JSON.write_image img
                               (JSON.write_images_tail imgs [])))%nat).
  { pose proof (length_write_image img (JSON.write_images_tail imgs [])).
    pose proof (length_write_images_tail imgs []). lia. }
  remember (JSON.write_image img (JSON.write_images_tail imgs [])) as body
    eqn:Hbody.
  replace (JSON.skip_ws (91 :: body)) with (91 :: body)
    by (subst body; reflexivity).
  replace (S (length (91 :: body)))
    with (S (10 + length imgs + (length body - 9 - length imgs)))%nat
    by (cbn [length]; lia).
  subst body. rewrite read_value_array, read_elements_images. reflexivity.
Qed.

Lemma natural_of_literal_toString (n : N) :
  JSON.natural_of_literal
    (Decimal.Decimal (Decimal.Pos (N.to_uint n)) Decimal.Nil)
  = Some n.
Proof.
  unfold JSON.natural_of_literal.
  cbn [Decimal.app_int Decimal.nb_digits Z.of_nat Z.sub Z.opp Z.leb
       Z.compare].
  rewrite DecimalFacts.app_nil_r.
  assert (E : Z.of_int (Decimal.Pos (N.to_uint n)) = Z.of_N n).
  { change (Z.of_int (Decimal.Pos (N.to_uint n)))
      with (Z.of_N (N.of_uint (N.to_uint n))).
    now rewrite DecimalN.Unsigned.of_to. }
  rewrite E.
  destruct (Z.ltb_spec (Z.of_N n) 0) as [H|_]; [lia|].
  f_equal. change (10 ^ 0)%Z with 1%Z. lia.
Qed.

Lemma as_image_image_value (img : ImageData.t) :
  JSON.as_image (image_value img) = Some img.
Proof.
  destruct img as [i n o s z t u].
  unfold image_value, JSON.as_image, JSON.get_string, JSON.get_size.
  cbn [ImageData.id ImageData.name ImageData.originalName ImageData.src
       ImageData.size ImageData.type ImageData.uploadDate].
  replace (JSON.get _ (js "id")) with (Some (JSON.String i)) by reflexivity.
  replace (JSON.get _ (js "name")) with (Some (JSON.String n))
    by reflexivity.
  replace (JSON.get _ (js "originalName")) with (Some (JSON.String o))
    by reflexivity.
  replace (JSON.get _ (js "src")) with (Some (JSON.String s)) by reflexivity.
  replace (JSON.get _ (js "size"))
    with (Some (JSON.Number
                  (Decimal.Decimal (Decimal.Pos (N.to_uint z)) Decimal.Nil)))
    by reflexivity.
  replace (JSON.get _ (js "type")) with (Some (JSON.String t)) by reflexivity.
  replace (JSON.get _ (js "uploadDate")) with (Some (JSON.String u))
    by reflexivity.
  now rewrite natural_of_literal_toString.
Qed.

Lemma as_image_list_image_values (imgs : list ImageData.t) :
  JSON.as_image_list (List.map image_value imgs) = Some imgs.
Proof.
  induction imgs as [|img imgs IH]; [reflexivity|].
  cbn [List.map JSON.as_image_list].
  now rewrite as_image_image_value, IH.
Qed.

(** What [JSON.stringify] writes for a gallery, [JSON.parse] reads back as
    the same gallery. *)
Lemma parse_images_stringify (imgs : list ImageData.t) :
  JSON.parse_images (JSON.stringify imgs) = Normal imgs.
Proof.
  unfold JSON.parse_images.
  now rewrite parse_stringify, as_image_list_image_values.
Qed.

Lemma stringify_nonempty (imgs : list ImageData.t) :
  exists (c : N) (text : jsstring), JSON.stringify imgs = c :: text.
Proof. unfold JSON.stringify, JSON.write_images. now eexists; eexists. Qed.
(* ===================================================================== *)
(** ** Loading and saving: claims C5, C6 and C9 *)

(** The theme part of the effect (lines 52-56) as a function of the
    world. *)
Lemma loadEffect_cases (w : World) :
  localStorage (snd (loadEffect w)) = localStorage w
  /\ match localStorage w !! js "gallery-images" with
     | Some (c :: text) =>
         match JSON.parse_images (c :: text) with
         | Normal imgs =>
             fst (loadEffect w) = Normal tt
             /\ images (snd (loadEffect w)) = imgs
             /\ console (snd (loadEffect w)) = console w
         | Throw e =>
             fst (loadEffect w) = Normal tt
             /\ images (snd (loadEffect w)) = []
             /\ console (snd (loadEffect w))
                = console w ++ [(js "Error loading saved images:", Caught e)]
         | IllTyped => fst (loadEffect w) = IllTyped
         end
     | _ =>
         fst (loadEffect w) = Normal tt
         /\ images (snd (loadEffect w)) = images w
         /\ console (snd (loadEffect w)) = console w
     end.
Proof.
  destruct w as [imgs0 dm up prog pf fi dc ls con plog].
  unfold loadEffect, loadImages, loadTheme. run_handlers.
  destruct (ls !! js "gallery-images") as [[|c text]|];
    [ | destruct (JSON.parse_images (c :: text)) as [imgs|e|] | ];
    run_handlers;
    try (destruct (ls !! js "theme-preference") as [theme|];
         [destruct (jsstring_eqb theme (js "dark"))|]);
    run_handlers; auto.
Qed.

Lemma saveEffect_cases (b : Browser) (w : World) :
  fst (saveEffect b w) = Normal tt
  /\ images (snd (saveEffect b w)) = images w
  /\ (if quota_exceeded b (localStorage w) (js "gallery-images")
           (JSON.stringify (images w))
      then localStorage (snd (saveEffect b w)) = localStorage w
           /\ console (snd (saveEffect b w))
              = console w
                  ++ [(js "Error saving images:", Caught QuotaExceededError)]
      else localStorage (snd (saveEffect b w))
           = <[js "gallery-images" := JSON.stringify (images w)]>
               (localStorage w)
           /\ console (snd (saveEffect b w)) = console w).
Proof.
  destruct w as [imgs0 dm up prog pf fi dc ls con plog].
  unfold saveEffect, localStorage_setItem. run_handlers.
  destruct (quota_exceeded b ls (js "gallery-images")
              (JSON.stringify imgs0)); run_handlers; auto.
Qed.

Lemma parse_images_syntax_error (blob : jsstring) :
  JSON.parse blob = Throw SyntaxError ->
  JSON.parse_images blob = Throw SyntaxError.
Proof. intros H. unfold JSON.parse_images. now rewrite H. Qed.

(** C5, as written, fails: when the storage area refuses the write, the
    next session loads what was stored before, here nothing. *)
Lemma full_storage_loses_the_gallery :
  ~ round_trip_as_written full_browser (gallery_world [cat_image]).
Proof. unfold round_trip_as_written. vm_compute. discriminate. Qed.

(** C5, amended.  When the write of [save] is accepted by the storage
    area, [save(gallery)] followed by [load()] in a new session yields the
    same gallery: the same records with the same seven fields, in the same
    order.  The text that [JSON.stringify] writes parses back to the
    gallery. *)
Theorem save_then_load_round_trip (b : Browser) (w : World) :
  quota_exceeded b (localStorage w) (js "gallery-images")
    (JSON.stringify (images w)) = false ->
  JSON.parse_images (JSON.stringify (images w)) = Normal (images w)
  /\ fst (save_then_load b w) = Normal tt
  /\ images (snd (save_then_load b w)) = images w.
Proof.
  intros Hquota. split; [apply parse_images_stringify|].
  unfold save_then_load.
  destruct (saveEffect_cases b w) as (_ & _ & Hsave).
  rewrite Hquota in Hsave. destruct Hsave as [Hstore _].
  set (w' := initialWorld (localStorage (snd (saveEffect b w)))).
  destruct (loadEffect_cases w') as (_ & Hload).
  assert (Hget : localStorage w' !! js "gallery-images"
                 = Some (JSON.stringify (images w))).
  { unfold w', initialWorld; world_fields. rewrite Hstore.
    apply lookup_insert_eq. }
  rewrite Hget in Hload.
  destruct (stringify_nonempty (images w)) as (c & text & Htext).
  rewrite Htext in Hload. rewrite <- Htext in Hload.
  rewrite parse_images_stringify in Hload. tauto.
Qed.

Lemma save_then_load_round_trip_witness :
  JSON.parse_images (JSON.stringify [cat_image; dog_image])
  = Normal [cat_image; dog_image]
  /\ fst (save_then_load reliable_browser
            (gallery_world [cat_image; dog_image])) = Normal tt
  /\ images (snd (save_then_load reliable_browser
                    (gallery_world [cat_image; dog_image])))
     = [cat_image; dog_image].
Proof.
  apply (save_then_load_round_trip reliable_browser
           (gallery_world [cat_image; dog_image])).
  reflexivity.
Defined.

(** C6, as written, fails: the empty string does not parse as JSON, but
    it is falsy, the guard of line 41 skips it and nothing is logged. *)
Lemma empty_blob_is_not_logged : ~ load_fallback_as_written [] ∅.
Proof.
  intros H. destruct (H eq_refl) as (_ & _ & Hlog).
  vm_compute in Hlog. exact Hlog.
Qed.

(** C6, amended.  For a stored blob that does not parse as JSON, [load]
    completes normally and the gallery is empty; when the blob is not the
    empty string the failure is logged once, and the empty string is
    skipped by the guard of line 41 without a log entry. *)
Theorem load_falls_back_on_unparsable_blob
  (blob : jsstring) (storage : gmap (list N) (list N)) :
  JSON.parse blob = Throw SyntaxError ->
  fst (load_of blob storage) = Normal tt
  /\ images (snd (load_of blob storage)) = []
  /\ (blob <> [] ->
      console (snd (load_of blob storage))
      = [(js "Error loading saved images:", Caught SyntaxError)])
  /\ (blob = [] -> console (snd (load_of blob storage)) = []).
Proof.
  intros Hparse. unfold load_of.
  set (w := initialWorld (<[js "gallery-images" := blob]> storage)).
  destruct (loadEffect_cases w) as (_ & Hload).
  assert (Hget : localStorage w !! js "gallery-images" = Some blob)
    by (unfold w, initialWorld; world_fields; apply lookup_insert_eq).
  rewrite Hget in Hload.
  destruct blob as [|c text].
  - destruct Hload as (H1 & H2 & H3). repeat split; auto. congruence.
  - rewrite (parse_images_syntax_error _ Hparse) in Hload.
    destruct Hload as (H1 & H2 & H3). repeat split; auto. discriminate.
Qed.

Lemma load_falls_back_on_unparsable_blob_witness :
  fst (load_of (js "[{oops") ∅) = Normal tt
  /\ images (snd (load_of (js "[{oops") ∅)) = []
  /\ (js "[{oops" <> [] ->
      console (snd (load_of (js "[{oops") ∅))
      = [(js "Error loading saved images:", Caught SyntaxError)])
  /\ (js "[{oops" = [] -> console (snd (load_of (js "[{oops") ∅)) = []).
Proof.
  apply (load_falls_back_on_unparsable_blob (js "[{oops") ∅).
  vm_compute. reflexivity.
Defined.






(* ===================================================================== *)
(** ** Further properties: the display name *)

Lemma is_extension_other_head (c : N) (rest : jsstring) :
  c <> 46 -> is_extension (c :: rest) = false.
Proof.
  intros Hc. destruct c as [|p]; [reflexivity|].
  repeat (destruct p as [p|p|]; try reflexivity).
  congruence.
Qed.

Lemma is_extension_dot (rest : jsstring) :
  is_extension (46 :: rest)
  = match rest with
    | [] => false
    | _ :: _ => forallb (fun x => negb ((x =? 47) || (x =? 46))) rest
    end.
Proof. now destruct rest. Qed.

Lemma forallb_no_dot_no_slash (ext : jsstring) :
  Forall (fun c => c <> 46 /\ c <> 47) ext ->
  forallb (fun x => negb ((x =? 47) || (x =? 46))) ext = true.
Proof.
  induction 1 as [|c ext [H46 H47] _ IH]; simpl; [reflexivity|].
  apply N.eqb_neq in H46, H47. now rewrite H46, H47, IH.
Qed.

Lemma forallb_with_dot (before after : jsstring) :
  forallb (fun x => negb ((x =? 47) || (x =? 46))) (before ++ 46 :: after)
  = false.
Proof.
  induction before as [|c before IH]; simpl.
  - reflexivity.
  - rewrite IH. apply andb_false_r.
Qed.

(** The display name of line 143.  [name.replace(/\.[^/.]+$/, "")] cuts
    the name at its last dot when at least one code unit follows that dot
    and none of them is a slash: [stem.ext] becomes [stem], also when the
    stem has dots of its own or is empty (a name such as [.gitignore]
    becomes the empty string).  A name without a dot is kept, and so is a
    name that ends in a dot. *)
Theorem remove_extension_cuts_at_the_last_dot (stem ext : jsstring) :
  (ext <> [] ->
   Forall (fun c => c <> 46 /\ c <> 47) ext ->
   remove_extension (stem ++ 46 :: ext) = stem)
  /\ (Forall (fun c => c <> 46) stem -> remove_extension stem = stem)
  /\ (Forall (fun c => c <> 46) ext ->
      In 47 ext -> remove_extension (stem ++ 46 :: ext) = stem ++ 46 :: ext)
  /\ remove_extension (stem ++ [46]) = stem ++ [46].
Proof.
  split; [|split; [|split]].
  - intros Hne Hext. induction stem as [|c stem IH].
    + cbn [app remove_extension]. rewrite is_extension_dot.
      destruct ext as [|e ext]; [congruence|].
      now rewrite forallb_no_dot_no_slash.
    + cbn [app remove_extension].
      replace (is_extension (c :: stem ++ 46 :: ext)) with false;
        [now rewrite IH|].
      destruct (N.eq_dec c 46) as [->|Hc].
      * rewrite is_extension_dot.
        destruct stem; cbn [app]; [reflexivity|].
        symmetry. apply (forallb_with_dot (_ :: _)).
      * symmetry. now apply is_extension_other_head.
  - induction 1 as [|c stem' Hc _ IH]; [reflexivity|].
    cbn [remove_extension].
    rewrite (is_extension_other_head c stem' Hc). now rewrite IH.
  - intros Hext Hslash.
    assert (Hno : forallb (fun x => negb ((x =? 47) || (x =? 46))) ext
                  = false).
    { clear Hext. induction ext as [|e ext IH]; [contradiction|].
      simpl. destruct Hslash as [->|Hin]; [reflexivity|].
      rewrite IH by assumption. apply andb_false_r. }
    assert (Htail : remove_extension ext = ext).
    { clear Hno Hslash. induction Hext as [|c ext' Hc _ IH]; [reflexivity|].
      cbn [remove_extension].
      rewrite (is_extension_other_head c ext' Hc). now rewrite IH. }
    induction stem as [|c stem IH].
    + cbn [app remove_extension]. rewrite is_extension_dot.
      destruct ext as [|e ext]; [contradiction|].
      rewrite Hno. now rewrite Htail.
    + cbn [app remove_extension].
      replace (is_extension (c :: stem ++ 46 :: ext)) with false;
        [now rewrite IH|].
      destruct (N.eq_dec c 46) as [->|Hc].
      * rewrite is_extension_dot.
        destruct stem; cbn [app]; [reflexivity|].
        symmetry. apply (forallb_with_dot (_ :: _)).
      * symmetry. now apply is_extension_other_head.
  - induction stem as [|c stem IH]; [reflexivity|].
    cbn [app remove_extension].
    replace (is_extension (c :: stem ++ [46])) with false;
      [now rewrite IH|].
    destruct (N.eq_dec c 46) as [->|Hc].
    + rewrite is_extension_dot.
      destruct stem; cbn [app]; [reflexivity|].
      symmetry. apply (forallb_with_dot (_ :: _) []).
    + symmetry. now apply is_extension_other_head.
Qed.

Lemma remove_extension_cuts_at_the_last_dot_witness :
  remove_extension (js "archive.tar" ++ 46 :: js "gz") = js "archive.tar"
  /\ remove_extension (js "README") = js "README"
  /\ remove_extension (js "v1" ++ 46 :: js "0/notes") = js "v1.0/notes"
  /\ remove_extension ([] ++ 46 :: js "gitignore") = [].
Proof.
  split; [|split; [|split]].
  - destruct (remove_extension_cuts_at_the_last_dot (js "archive.tar")
                (js "gz")) as (H & _).
    apply H; [discriminate | repeat constructor; discriminate].
  - destruct (remove_extension_cuts_at_the_last_dot (js "README") [])
      as (_ & H & _).
    apply H. repeat constructor; discriminate.
  - destruct (remove_extension_cuts_at_the_last_dot (js "v1")
                (js "0/notes")) as (_ & _ & H & _).
    apply H; [repeat constructor; discriminate | vm_compute; tauto].
  - destruct (remove_extension_cuts_at_the_last_dot [] (js "gitignore"))
      as (H & _).
    apply H; [discriminate | repeat constructor; discriminate].
Defined.

(* ===================================================================== *)
(** ** Further properties: the upload *)

Lemma validation_log_length (files : list File.t) :
  (length (List.filter accepts files) + length (validation_log files)
   = length files)%nat.
Proof.
  induction files as [|file rest IH]; [reflexivity|].
  cbn [List.filter validation_log]. unfold accepts at 1.
  destruct (validateFile file) as [v|e|] eqn:Hv; cbn [length]; try lia.
  now apply validateFile_not_IllTyped in Hv.
Qed.

Lemma validation_log_entries (files : list File.t) :
  Forall
    (fun entry =>
       exists file : File.t,
         In file files /\ accepts file = false
         /\ fst entry
            = js "File validation failed for " ++ File.name file ++ js ":")
    (validation_log files).
Proof.
  induction files as [|file rest IH]; [constructor|].
  cbn [validation_log].
  assert (Hrest :
    Forall
      (fun entry =>
         exists f : File.t,
           In f (file :: rest) /\ accepts f = false
           /\ fst entry
              = js "File validation failed for " ++ File.name f ++ js ":")
      (validation_log rest)).
  { revert IH. apply List.Forall_impl.
    intros entry (f & Hin & Hf & He). exists f. simpl. auto. }
  destruct (validateFile file) as [v|e|] eqn:Hv; try assumption.
  constructor; [|assumption].
  exists file. unfold accepts. rewrite Hv. simpl. auto.
Qed.

(** The loop of lines 119-127 never throws and never stops at a rejected
    file: it returns the accepted files in their order, logs one entry,
    which names the file, for each rejected one, and changes nothing
    else. *)
Theorem validation_partitions_the_batch (files : list File.t) (w : World) :
  validateAll files [] w
  = (Normal (List.filter accepts files), logged w (validation_log files))
  /\ (length (List.filter accepts files) + length (validation_log files)
      = length files)%nat
  /\ Forall
       (fun entry =>
          exists file : File.t,
            In file files /\ accepts file = false
            /\ fst entry
               = js "File validation failed for " ++ File.name file
                   ++ js ":")
       (validation_log files).
Proof.
  split; [|split].
  - now rewrite validateAll_run.
  - apply validation_log_length.
  - apply validation_log_entries.
Qed.

(** Whatever the browser does, [handleFileUpload] on a batch with files
    completes normally (no rejection reaches the caller) and its [finally]
    block leaves the uploading flag off, the progress at 0, the previews
    empty and the file input cleared; the storage area and the theme are
    not touched. *)
Theorem upload_always_completes_and_resets
  (b : Browser) (file : File.t) (rest : list File.t) (w : World) :
  let r := handleFileUpload b (Some (file :: rest)) w in
  fst r = Normal tt
  /\ uploading (snd r) = false
  /\ uploadProgress (snd r) = 0%Q
  /\ previewFiles (snd r) = []
  /\ fileInput (snd r)
     = match fileInput w with Some _ => Some [] | None => None end
  /\ localStorage (snd r) = localStorage w
  /\ isDarkMode (snd r) = isDarkMode w
  /\ darkClass (snd r) = darkClass w.
Proof.
  cbv zeta. rewrite handleFileUpload_run by discriminate.
  unfold uploaded. cbn [fst snd]. world_fields. tauto.
Qed.

Lemma records_of_read_positions (b : Browser) (ps : list (nat * File.t)) :
  Forall2
    (fun p img =>
       encoded b (fst p) (snd p) = Some (ImageData.src img)
       /\ img = makeImageData b (fst p) (snd p) (ImageData.src img))
    (List.filter (read_ok b) ps) (flat_map (record_at b) ps).
Proof.
  induction ps as [|[i file] rest IH]; cbn [List.filter flat_map].
  - constructor.
  - unfold read_ok at 1, record_at at 1. cbn [fst snd].
    destruct (encoded b i file) as [base64|] eqn:E; cbn [app]; [|assumption].
    constructor; [|assumption].
    cbn [fst snd]. rewrite E. split; reflexivity.
Qed.

(** An upload only appends: the records that were in the gallery stay, in
    their order, at its front.  What is appended is, in the order of the
    batch, the record built at lines 141-149 for each valid file that the
    reader delivered a string for, from that file, its position among the
    valid files and that string; a file whose read failed gets no record
    and costs no other file its record. *)
Theorem upload_appends_the_files_that_were_read
  (b : Browser) (files : list File.t) (w : World) :
  let valid := List.filter accepts files in
  let recs := flat_map (record_at b) (positions valid) in
  images (snd (handleFileUpload b (Some files) w)) = images w ++ recs
  /\ Forall2
       (fun p img =>
          encoded b (fst p) (snd p) = Some (ImageData.src img)
          /\ img = makeImageData b (fst p) (snd p) (ImageData.src img))
       (List.filter (read_ok b) (positions valid)) recs
  /\ length recs = length (List.filter (read_ok b) (positions valid)).
Proof.
  intros valid recs.
  pose proof (records_of_read_positions b (positions valid)) as Hrecs.
  fold recs in Hrecs.
  split; [|split].
  - unfold recs, positions. rewrite <- produced_flat_map.
    destruct files as [|file rest].
    + simpl. now rewrite List.app_nil_r.
    + now rewrite handleFileUpload_run by discriminate.
  - exact Hrecs.
  - symmetry. exact (List.Forall2_length Hrecs).
Qed.

Lemma processing_log_length (b : Browser) (pending : list File.t) :
  forall i : nat,
    (length (produced b i pending) + length (processing_log b i pending)
     = length pending)%nat.
Proof.
  induction pending as [|file rest IH]; intros i;
    cbn [produced processing_log]; [reflexivity|].
  specialize (IH (S i)).
  destruct (encoded b i file); cbn [length]; lia.
Qed.

(** Every file of a batch is accounted for: it yields a record or one
    console entry (its validation or its read failed).  A batch without a
    valid file yields one entry more, the failure of the batch. *)
Theorem upload_accounts_for_every_file
  (b : Browser) (file : File.t) (rest : list File.t) (w : World) :
  let files := file :: rest in
  let w' := snd (handleFileUpload b (Some files) w) in
  exists (recs : list ImageData.t) (entries : list (jsstring * console_arg)),
    images w' = images w ++ recs
    /\ console w' = console w ++ entries
    /\ (length recs + length entries
        = length files
          + match List.filter accepts files with [] => 1 | _ => 0 end)%nat.
Proof.
  cbv zeta. rewrite handleFileUpload_run by discriminate.
  cbn [snd]. unfold uploaded. world_fields.
  eexists; eexists. split; [reflexivity|]. split; [reflexivity|].
  unfold upload_log. rewrite List.length_app.
  pose proof (validation_log_length (file :: rest)) as Hval.
  pose proof (processing_log_length b (List.filter accepts (file :: rest)) 0)
    as Hproc.
  destruct (List.filter accepts (file :: rest)) as [|v valid];
    cbn [length produced] in *; lia.
Qed.

Lemma nothing_encoded (b : Browser) (total : nat) (pending : list File.t) :
  (forall (i : nat) (file : File.t), encoded b i file = None) ->
  forall i : nat,
    produced b i pending = []
    /\ reported b total i pending = []
    /\ length (processing_log b i pending) = length pending.
Proof.
  intros Hnone. induction pending as [|file rest IH]; intros i;
    cbn [produced reported processing_log]; [auto|].
  rewrite Hnone. destruct (IH (S i)) as (Hp & Hr & Hl).
  cbn [length]. auto.
Qed.

(** An upload in which files are valid but every read fails is a silent
    no-op for the gallery: nothing is appended, no progress value is
    reported, the call completes normally, and the console gets one entry
    per rejected file and one per file whose read failed, without the
    failure of the batch that a batch with no valid file raises. *)
Theorem upload_with_every_read_failing
  (b : Browser) (files : list File.t) (w : World) :
  List.filter accepts files <> [] ->
  (forall (i : nat) (file : File.t), encoded b i file = None) ->
  let r := handleFileUpload b (Some files) w in
  fst r = Normal tt
  /\ images (snd r) = images w
  /\ progress_during b files w = []
  /\ console (snd r)
     = console w ++ validation_log files
         ++ processing_log b 0 (List.filter accepts files)
  /\ length (processing_log b 0 (List.filter accepts files))
     = length (List.filter accepts files).
Proof.
  intros Hvalid Hnone. cbv zeta.
  assert (Hfiles : files <> []) by (intros ->; now apply Hvalid).
  rewrite progress_during_reported.
  rewrite handleFileUpload_run by assumption.
  cbn [fst snd]. unfold uploaded, upload_log. world_fields.
  destruct (nothing_encoded b (length (List.filter accepts files))
              (List.filter accepts files) Hnone 0) as (Hp & Hr & Hl).
  rewrite Hp, Hr, List.app_nil_r.
  destruct (List.filter accepts files) as [|v valid] eqn:Hf;
    [congruence|].
  auto.
Qed.

Lemma upload_with_every_read_failing_witness :
  fst (handleFileUpload unreadable_browser (Some [a_png; b_exe])
         (gallery_world [dog_image])) = Normal tt
  /\ images (snd (handleFileUpload unreadable_browser (Some [a_png; b_exe])
                    (gallery_world [dog_image]))) = [dog_image]
  /\ progress_during unreadable_browser [a_png; b_exe]
       (gallery_world [dog_image]) = []
  /\ console (snd (handleFileUpload unreadable_browser (Some [a_png; b_exe])
                     (gallery_world [dog_image])))
     = [] ++ validation_log [a_png; b_exe]
         ++ processing_log unreadable_browser 0
              (List.filter accepts [a_png; b_exe])
  /\ length (processing_log unreadable_browser 0
               (List.filter accepts [a_png; b_exe]))
     = length (List.filter accepts [a_png; b_exe]).
Proof.
  apply (upload_with_every_read_failing unreadable_browser [a_png; b_exe]
           (gallery_world [dog_image])).
  - vm_compute. discriminate.
  - intros i file. reflexivity.
Defined.

(* ===================================================================== *)
(** ** Further properties: the storage area and the theme *)

Lemma storage_keys_differ : js "gallery-images" <> js "theme-preference".
Proof. discriminate. Qed.

(** The save effect never throws and never changes the gallery.  When
    the storage area refuses the write, what is stored stays as it was and
    the refusal is logged; when it takes the write, the text of the
    gallery is stored under [gallery-images] and nothing is logged.  The
    theme preference is untouched either way. *)
Theorem save_keeps_the_gallery_and_the_theme (b : Browser) (w : World) :
  let w' := snd (saveEffect b w) in
  fst (saveEffect b w) = Normal tt
  /\ images w' = images w
  /\ localStorage w' !! js "theme-preference"
     = localStorage w !! js "theme-preference"
  /\ (if quota_exceeded b (localStorage w) (js "gallery-images")
           (JSON.stringify (images w))
      then localStorage w' = localStorage w
           /\ console w'
              = console w
                  ++ [(js "Error saving images:", Caught QuotaExceededError)]
      else localStorage w' !! js "gallery-images"
           = Some (JSON.stringify (images w))
           /\ console w' = console w).
Proof.
  cbv zeta. destruct (saveEffect_cases b w) as (Hfst & Himgs & Hsave).
  split; [assumption|]. split; [assumption|].
  destruct (quota_exceeded b (localStorage w) (js "gallery-images")
              (JSON.stringify (images w)));
    destruct Hsave as [Hls Hcon]; rewrite Hls.
  - auto.
  - rewrite lookup_insert_eq.
    rewrite lookup_insert_ne by exact storage_keys_differ. auto.
Qed.

Lemma toggleTheme_cases (b : Browser) (w : World) :
  let w' := snd (toggleTheme b w) in
  isDarkMode w' = negb (isDarkMode w)
  /\ darkClass w' = negb (darkClass w)
  /\ images w' = images w
  /\ console w' = console w
  /\ (if quota_exceeded b (localStorage w) (js "theme-preference")
           (theme_name (negb (isDarkMode w)))
      then fst (toggleTheme b w) = Throw QuotaExceededError
           /\ localStorage w' = localStorage w
      else fst (toggleTheme b w) = Normal tt
           /\ localStorage w'
              = <[js "theme-preference" := theme_name (negb (isDarkMode w))]>
                  (localStorage w)).
Proof.
  destruct w as [imgs0 dm up prog pf fi dc ls con plog].
  unfold toggleTheme, toggleDarkClass, localStorage_setItem, theme_name.
  run_handlers.
  destruct (quota_exceeded b ls (js "theme-preference")
              (if negb dm then js "dark" else js "light"));
    run_handlers; repeat split.
Qed.

(** Two clicks on the theme button bring the theme back: the state flag
    and the class of the document are as before, whatever the storage area
    does; when both writes are taken, the stored preference names the
    theme the session started from and the stored gallery is untouched. *)
Theorem toggleTheme_twice_restores (b b' : Browser) (w : World) :
  let w1 := snd (toggleTheme b w) in
  let w2 := snd (toggleTheme b' w1) in
  isDarkMode w2 = isDarkMode w
  /\ darkClass w2 = darkClass w
  /\ images w2 = images w
  /\ (fst (toggleTheme b w) = Normal tt ->
      fst (toggleTheme b' w1) = Normal tt ->
      localStorage w2 !! js "theme-preference"
      = Some (theme_name (isDarkMode w))
      /\ localStorage w2 !! js "gallery-images"
         = localStorage w !! js "gallery-images").
Proof.
  cbv zeta.
  destruct (toggleTheme_cases b w) as (Hd1 & Hc1 & Hi1 & _ & Hq1).
  destruct (toggleTheme_cases b' (snd (toggleTheme b w)))
    as (Hd2 & Hc2 & Hi2 & _ & Hq2).
  cbv zeta in *.
  rewrite Hd2, Hd1, Hc2, Hc1, Hi2, Hi1, !negb_involutive.
  repeat split; try reflexivity.
  - revert Hq2 Hq1.
    destruct (quota_exceeded b' _ _ _); intros [Hf2 Hls2];
      [rewrite Hf2 in *; discriminate|].
    destruct (quota_exceeded b _ _ _); intros [Hf1 Hls1];
      [rewrite Hf1 in *; discriminate|].
    rewrite Hls2, lookup_insert_eq, Hd1, negb_involutive. reflexivity.
  - revert Hq2 Hq1.
    destruct (quota_exceeded b' _ _ _); intros [Hf2 Hls2];
      [rewrite Hf2 in *; discriminate|].
    destruct (quota_exceeded b _ _ _); intros [Hf1 Hls1];
      [rewrite Hf1 in *; discriminate|].
    rewrite Hls2, Hls1.
    rewrite !lookup_insert_ne
      by (intros Heq; symmetry in Heq; exact (storage_keys_differ Heq)).
    reflexivity.
Qed.

Lemma toggleTheme_twice_restores_witness :
  localStorage
    (snd (toggleTheme reliable_browser
            (snd (toggleTheme reliable_browser (initialWorld ∅)))))
    !! js "theme-preference" = Some (theme_name false)
  /\ localStorage
       (snd (toggleTheme reliable_browser
               (snd (toggleTheme reliable_browser (initialWorld ∅)))))
       !! js "gallery-images" = (∅ : gmap (list N) (list N)) !! js "gallery-images".
Proof.
  destruct (toggleTheme_twice_restores reliable_browser reliable_browser
              (initialWorld ∅)) as (_ & _ & _ & H).
  apply H; reflexivity.
Defined.

(** [toggleTheme] does not guard its write (line 72).  When the storage
    area refuses it, the exception reaches the caller after the theme has
    been switched on screen, and the stored preference is the old one. *)
Theorem toggleTheme_with_refused_write (b : Browser) (w : World) :
  quota_exceeded b (localStorage w) (js "theme-preference")
    (theme_name (negb (isDarkMode w))) = true ->
  fst (toggleTheme b w) = Throw QuotaExceededError
  /\ isDarkMode (snd (toggleTheme b w)) = negb (isDarkMode w)
  /\ darkClass (snd (toggleTheme b w)) = negb (darkClass w)
  /\ localStorage (snd (toggleTheme b w)) = localStorage w.
Proof.
  intros Hq.
  destruct (toggleTheme_cases b w) as (Hd & Hc & _ & _ & Hcase).
  cbv zeta in *. rewrite Hq in Hcase. tauto.
Qed.

Lemma toggleTheme_with_refused_write_witness :
  fst (toggleTheme full_browser (initialWorld ∅)) = Throw QuotaExceededError
  /\ isDarkMode (snd (toggleTheme full_browser (initialWorld ∅))) = negb false
  /\ darkClass (snd (toggleTheme full_browser (initialWorld ∅))) = negb false
  /\ localStorage (snd (toggleTheme full_browser (initialWorld ∅))) = ∅.
Proof.
  apply (toggleTheme_with_refused_write full_browser (initialWorld ∅)).
  reflexivity.
Defined.

Lemma loadEffect_theme (w : World) :
  (fst (loadEffect w) = Normal tt ->
   match localStorage w !! js "theme-preference" with
   | Some theme =>
       if jsstring_eqb theme (js "dark")
       then isDarkMode (snd (loadEffect w)) = true
            /\ darkClass (snd (loadEffect w)) = true
       else isDarkMode (snd (loadEffect w)) = isDarkMode w
            /\ darkClass (snd (loadEffect w)) = darkClass w
   | None =>
       isDarkMode (snd (loadEffect w)) = isDarkMode w
       /\ darkClass (snd (loadEffect w)) = darkClass w
   end)
  /\ ((isDarkMode (snd (loadEffect w)) = true
       /\ darkClass (snd (loadEffect w)) = true)
      \/ (isDarkMode (snd (loadEffect w)) = isDarkMode w
          /\ darkClass (snd (loadEffect w)) = darkClass w)).
Proof.
  destruct w as [imgs0 dm up prog pf fi dc ls con plog].
  unfold loadEffect, loadImages, loadTheme. run_handlers.
  destruct (ls !! js "gallery-images") as [[|c text]|];
    [ | destruct (JSON.parse_images (c :: text)) as [imgs|e|] | ];
    run_handlers;
    try (destruct (ls !! js "theme-preference") as [theme|];
         [destruct (jsstring_eqb theme (js "dark"))|]);
    run_handlers; split; auto; discriminate.
Qed.

(** The theme survives a restart: after a click on the theme button whose
    write is taken, the next session starts, once its load has run, in the
    theme that the click selected, with the class of the document in
    step. *)
Theorem theme_survives_restart (b : Browser) (w : World) :
  let next := loadEffect (initialWorld (localStorage (snd (toggleTheme b w)))) in
  fst (toggleTheme b w) = Normal tt ->
  fst next = Normal tt ->
  isDarkMode (snd next) = negb (isDarkMode w)
  /\ darkClass (snd next) = negb (isDarkMode w).
Proof.
  cbv zeta. intros Hok Hload.
  destruct (toggleTheme_cases b w) as (_ & _ & _ & _ & Hcase).
  cbv zeta in Hcase.
  destruct (quota_exceeded b _ _ _);
    destruct Hcase as [Hf Hls]; [rewrite Hf in Hok; discriminate|].
  destruct (loadEffect_theme
              (initialWorld (localStorage (snd (toggleTheme b w)))))
    as (Htheme & _).
  specialize (Htheme Hload). revert Htheme.
  unfold initialWorld at 1 2 3. world_fields.
  rewrite Hls, lookup_insert_eq.
  destruct (isDarkMode w); cbn [negb theme_name];
    [replace (jsstring_eqb (js "light") (js "dark")) with false
       by reflexivity
    |replace (jsstring_eqb (js "dark") (js "dark")) with true
       by reflexivity];
    unfold initialWorld; world_fields; tauto.
Qed.

Lemma theme_survives_restart_witness :
  isDarkMode
    (snd (loadEffect
            (initialWorld
               (localStorage
                  (snd (toggleTheme reliable_browser (initialWorld ∅)))))))
  = negb false
  /\ darkClass
       (snd (loadEffect
               (initialWorld
                  (localStorage
                     (snd (toggleTheme reliable_browser (initialWorld ∅)))))))
     = negb false.
Proof.
  apply (theme_survives_restart reliable_browser (initialWorld ∅));
    vm_compute; reflexivity.
Defined.

Lemma operation_keeps_theme (w w' : World) :
  operation w w' ->
  (isDarkMode w' = true /\ darkClass w' = true)
  \/ (isDarkMode w' = isDarkMode w /\ darkClass w' = darkClass w).
Proof.
  intros Hop. destruct Hop as [w|b files w|imageId w|b w].
  - apply loadEffect_theme.
  - right. destruct files as [[|file rest]|]; try (split; reflexivity).
    rewrite handleFileUpload_run by discriminate. split; reflexivity.
  - right. split; reflexivity.
  - right. destruct w as [imgs0 dm up prog pf fi dc ls con plog].
    unfold saveEffect, localStorage_setItem. run_handlers.
    destruct (quota_exceeded b ls (js "gallery-images")
                (JSON.stringify imgs0)); run_handlers; auto.
Qed.

(** Throughout a session (load, uploads, deletions, saves and clicks on
    the theme button, whether their writes are taken or refused) the class
    [dark] of the document is set exactly when [isDarkMode] is true. *)
Theorem dark_class_follows_the_flag
  (storage : gmap (list N) (list N)) (w : World) :
  session storage w -> darkClass w = isDarkMode w.
Proof.
  induction 1 as [|w w' _ IH Hstep]; [reflexivity|].
  destruct Hstep as [w w' Hop|b w].
  - destruct (operation_keeps_theme w w' Hop) as [[-> ->]|[-> ->]];
      [reflexivity | assumption].
  - destruct (toggleTheme_cases b w) as (Hd & Hc & _).
    cbv zeta in *. now rewrite Hd, Hc, IH.
Qed.

Lemma dark_class_follows_the_flag_witness :
  darkClass
    (snd (toggleTheme full_browser
            (snd (handleFileUpload reliable_browser (Some [a_png])
                    (initialWorld ∅)))))
  = isDarkMode
      (snd (toggleTheme full_browser
              (snd (handleFileUpload reliable_browser (Some [a_png])
                      (initialWorld ∅))))).
Proof.
  apply (dark_class_follows_the_flag ∅).
  eapply session_next; [|apply step_toggle].
  eapply session_next; [apply session_start|].
  apply step_operation. apply op_upload.
Defined.

(* ===================================================================== *)
(** ** Further properties: deleting, searching, loading *)

Lemma filter_twice {A : Type} (keep : A -> bool) (l : list A) :
  List.filter keep (List.filter keep l) = List.filter keep l.
Proof.
  induction l as [|x l IH]; [reflexivity|]. simpl.
  destruct (keep x) eqn:Hx; simpl; [rewrite Hx, IH|]; auto.
Qed.

Lemma filter_swap {A : Type} (keep keep' : A -> bool) (l : list A) :
  List.filter keep (List.filter keep' l)
  = List.filter keep' (List.filter keep l).
Proof.
  induction l as [|x l IH]; [reflexivity|]. simpl.
  destruct (keep' x) eqn:Hx'; destruct (keep x) eqn:Hx; simpl;
    rewrite ?Hx, ?Hx', ?IH; auto.
Qed.

(** Deleting is idempotent and deletions commute: the order in which
    records are deleted does not matter, and deleting never adds to the
    gallery or touches the storage area. *)
Theorem deleteImage_idempotent_and_commutative
  (i j : jsstring) (w : World) :
  images (snd (deleteImage i (snd (deleteImage i w))))
  = images (snd (deleteImage i w))
  /\ images (snd (deleteImage i (snd (deleteImage j w))))
     = images (snd (deleteImage j (snd (deleteImage i w))))
  /\ (length (images (snd (deleteImage i w))) <= length (images w))%nat
  /\ localStorage (snd (deleteImage i w)) = localStorage w.
Proof.
  unfold deleteImage, setImages; cbn [snd]; world_fields.
  split; [apply filter_twice|]. split; [apply filter_swap|].
  split; [apply List.filter_length_le | reflexivity].
Qed.

(** Searching commutes with deleting (the hits of a search in the gallery
    after a deletion are the hits before it without the deleted record),
    and searching among the hits of a query for the same query changes
    nothing.  This holds for any [toLowerCase]. *)
Theorem search_commutes_with_delete
  (toLowerCase : jsstring -> jsstring) (imageId query : jsstring)
  (w : World) :
  filteredImages toLowerCase (images (snd (deleteImage imageId w))) query
  = List.filter
      (fun img => negb (jsstring_eqb (ImageData.id img) imageId))
      (filteredImages toLowerCase (images w) query)
  /\ filteredImages toLowerCase
       (filteredImages toLowerCase (images w) query) query
     = filteredImages toLowerCase (images w) query
  /\ (length (filteredImages toLowerCase (images w) query)
      <= length (images w))%nat.
Proof.
  unfold deleteImage, setImages, filteredImages; cbn [snd]; world_fields.
  split; [apply filter_swap|]. split; [apply filter_twice|].
  apply List.filter_length_le.
Qed.

(** A file of an accepted type that is over the limit by at most 5,242
    bytes is rejected with a message that gives its size as [10.00MB]
    beside the maximum of 10MB: two decimals do not show the excess. *)
Theorem barely_oversized_file_reads_10_00MB (file : File.t) :
  In (File.type file) validTypes ->
  maxSize < File.size file <= 10491002 ->
  validateFile file
  = Throw (Error (js "File too large: 10.00MB. Maximum size is 10MB.")).
Proof.
  intros Htype [Hlo Hhi].
  destruct (validateFile_cases file)
    as [(_ & Hs & _) | [(Ht & _) | (_ & _ & H)]];
    [unfold maxSize in *; lia | contradiction |].
  unfold rejects_with in H. rewrite H. unfold rejection_message.
  do 2 f_equal. f_equal. unfold megabytes_toFixed2.
  replace ((100 * File.size file + 524288) / 1048576) with 1000;
    [reflexivity|].
  unfold maxSize in Hlo.
  apply (N.div_unique _ _ _ (100 * File.size file + 524288 - 1048576000));
    lia.
Qed.

Lemma barely_oversized_file_reads_10_00MB_witness :
  validateFile (File.mk (js "photo.png") 10491002 (js "image/png"))
  = Throw (Error (js "File too large: 10.00MB. Maximum size is 10MB.")).
Proof.
  apply (barely_oversized_file_reads_10_00MB
           (File.mk (js "photo.png") 10491002 (js "image/png")));
    [vm_compute; tauto | unfold maxSize; cbn [File.size]; lia].
Defined.

(** Loading never writes to the storage area; without a stored gallery
    (no entry under [gallery-images]) it leaves the gallery and the
    console as they are; and a load that completes normally is idempotent:
    loading again gives the same gallery and the same theme. *)
Theorem load_reads_only_and_is_idempotent (w : World) :
  let w1 := snd (loadEffect w) in
  localStorage w1 = localStorage w
  /\ (localStorage w !! js "gallery-images" = None ->
      fst (loadEffect w) = Normal tt
      /\ images w1 = images w /\ console w1 = console w)
  /\ (fst (loadEffect w) = Normal tt ->
      fst (loadEffect w1) = Normal tt
      /\ images (snd (loadEffect w1)) = images w1
      /\ isDarkMode (snd (loadEffect w1)) = isDarkMode w1
      /\ darkClass (snd (loadEffect w1)) = darkClass w1).
Proof.
  cbv zeta.
  destruct (loadEffect_cases w) as (Hls & Hload).
  split; [assumption|]. split.
  - intros Hnone. rewrite Hnone in Hload. exact Hload.
  - intros Hok.
    destruct (loadEffect_cases (snd (loadEffect w))) as (_ & Hload1).
    destruct (loadEffect_theme w) as (Htheme & _).
    specialize (Htheme Hok).
    rewrite Hls in Hload1.
    assert (Hok1 : fst (loadEffect (snd (loadEffect w))) = Normal tt
                   /\ images (snd (loadEffect (snd (loadEffect w))))
                      = images (snd (loadEffect w))).
    { destruct (localStorage w !! js "gallery-images") as [[|c text]|];
        try (destruct Hload1 as (H1 & H2 & _); now split).
      destruct (JSON.parse_images (c :: text)) as [imgs|e|].
      - destruct Hload as (_ & -> & _).
        destruct Hload1 as (H1 & H2 & _). now split.
      - destruct Hload as (_ & -> & _).
        destruct Hload1 as (H1 & H2 & _). now split.
      - rewrite Hload in Hok. discriminate. }
    destruct Hok1 as [Hok1 Himgs]. split; [assumption|].
    split; [assumption|].
    destruct (loadEffect_theme (snd (loadEffect w))) as (Htheme1 & _).
    specialize (Htheme1 Hok1). rewrite Hls in Htheme1.
    destruct (localStorage w !! js "theme-preference") as [theme|];
      [destruct (jsstring_eqb theme (js "dark"))|];
      destruct Htheme as [Ha Hb]; destruct Htheme1 as [Ha1 Hb1];
      rewrite ?Ha1, ?Hb1, ?Ha, ?Hb; auto.
Qed.

Lemma load_reads_only_and_is_idempotent_witness :
  (fst (loadEffect (initialWorld ∅)) = Normal tt
   /\ images (snd (loadEffect (initialWorld ∅))) = []
   /\ console (snd (loadEffect (initialWorld ∅))) = [])
  /\ (fst (loadEffect (snd (loadEffect (initialWorld ∅)))) = Normal tt
      /\ images (snd (loadEffect (snd (loadEffect (initialWorld ∅)))))
         = images (snd (loadEffect (initialWorld ∅)))
      /\ isDarkMode (snd (loadEffect (snd (loadEffect (initialWorld ∅)))))
         = isDarkMode (snd (loadEffect (initialWorld ∅)))
      /\ darkClass (snd (loadEffect (snd (loadEffect (initialWorld ∅)))))
         = darkClass (snd (loadEffect (initialWorld ∅)))).
Proof.
  destruct (load_reads_only_and_is_idempotent (initialWorld ∅))
    as (_ & H1 & H2).
  split; [apply H1 | apply H2]; reflexivity.
Defined.

(* ===================================================================== *)
(** ** Further properties: the ids of the records *)

Lemma uint_units_injective (d d' : Decimal.uint) :
  uint_units d = uint_units d' -> d = d'.
Proof.
  revert d'. induction d; intros d' H; destruct d'; simpl in H;
    try discriminate; try reflexivity;
    injection H as H; f_equal; now apply IHd.
Qed.

Lemma Number_toString_injective (n m : N) :
  Number_toString n = Number_toString m -> n = m.
Proof.
  intros H. apply DecimalN.Unsigned.to_uint_inj.
  now apply uint_units_injective.
Qed.

(** The id of line 142 starts with the digits of [Date.now()]: records
    made at different clock values of the same number of digits (any two
    in the same 285 years) have different ids, whatever [Math.random]
    returns. *)
Theorem ids_differ_when_the_clock_differs
  (b : Browser) (i j : nat) (file file' : File.t) (base64 base64' : jsstring) :
  length (Number_toString (Date_now b i))
  = length (Number_toString (Date_now b j)) ->
  Date_now b i <> Date_now b j ->
  ImageData.id (makeImageData b i file base64)
  <> ImageData.id (makeImageData b j file' base64').
Proof.
  intros Hlen Hclock Hid. unfold makeImageData in Hid. simpl in Hid.
  apply Hclock, Number_toString_injective.
  assert (Hfirst :
    firstn (length (Number_toString (Date_now b i)))
      (Number_toString (Date_now b i)
         ++ String_substr (Math_random_toString36 b i) 2 9)
    = firstn (length (Number_toString (Date_now b i)))
        (Number_toString (Date_now b j)
           ++ String_substr (Math_random_toString36 b j) 2 9))
    by now rewrite Hid.
  rewrite Hlen in Hfirst at 2.
  now rewrite !firstn_app, !Nat.sub_diag, !firstn_all, !firstn_O,
    !List.app_nil_r in Hfirst.
Qed.

Lemma ids_differ_when_the_clock_differs_witness :
  ImageData.id (makeImageData reliable_browser 0 a_png (js "data:,"))
  <> ImageData.id (makeImageData reliable_browser 1 a_png (js "data:,")).
Proof.
  apply (ids_differ_when_the_clock_differs reliable_browser 0 1);
    vm_compute; [reflexivity | discriminate].
Defined.

(** Uploading one valid file whose read succeeds and then deleting the
    record by its id gives back the gallery as it was, provided no record
    of the gallery already had that id. *)
Theorem delete_undoes_upload
  (b : Browser) (file : File.t) (base64 : jsstring) (w : World) :
  accepts file = true ->
  encoded b 0 file = Some base64 ->
  Forall
    (fun img =>
       ImageData.id img <> ImageData.id (makeImageData b 0 file base64))
    (images w) ->
  images
    (snd (deleteImage (ImageData.id (makeImageData b 0 file base64))
            (snd (handleFileUpload b (Some [file]) w))))
  = images w.
Proof.
  intros Hvalid Henc Hfresh.
  rewrite handleFileUpload_run by discriminate.
  unfold deleteImage, setImages, uploaded; cbn [snd]; world_fields.
  cbn [List.filter]. rewrite Hvalid. cbn [produced]. rewrite Henc.
  rewrite List.filter_app. cbn [List.filter].
  rewrite jsstring_eqb_refl. cbn [negb].
  rewrite filter_keeps_all by now apply other_id_kept.
  apply List.app_nil_r.
Qed.

Lemma delete_undoes_upload_witness :
  images
    (snd (deleteImage
            (ImageData.id
               (makeImageData reliable_browser 0 a_png
                  (js "data:image/png;base64,AAAA")))
            (snd (handleFileUpload reliable_browser (Some [a_png])
                    (gallery_world [dog_image])))))
  = [dog_image].
Proof.
  apply (delete_undoes_upload reliable_browser a_png
           (js "data:image/png;base64,AAAA") (gallery_world [dog_image])).
  - reflexivity.
  - reflexivity.
  - repeat constructor. vm_compute. discriminate.
Defined.
